(** * sso-store-macdb: presence reconciliation of "arp -an" snapshots

    A shallow embedding of [mac_db_parser.py] and [mac_update_wsgi.py].

    The program is Python 2.  Its effects are modelled by state passing over
    a [World]: the MySQL table [macdb], the Redis keyspace, the wall clock,
    the random generator and the log of every call the program makes to an
    external collaborator (statsd, MySQL, Redis, stdout, the WSGI server).
    Python exceptions are results: a computation returns [Ok v] or
    [Raise e] together with the world as it was left.

    The SQL statements are kept as values, not as text: the escaping of
    their parameters changes the text sent, not the values stored.  The
    modules [config] and [instrumentation] are not part of the sources
    read; of the latter, [statsd.incr] is a logged call and the [timing]
    decorators, which touch neither store, are left out. *)

From Stdlib Require Import Ascii String QArith Floats.
From stdpp Require Import gmap strings list.

Local Open Scope string_scope.

(** A decimal literal such as 0.18 stands, as in Python, for the binary64
    number nearest to it. *)
#[local] Set Warnings "-inexact-float".

(** ** Python strings *)

Module PyStr.

(** [s.split(sep)] for a separator of one character: the pieces between
    the occurrences of [sep]; an empty string gives one empty piece. *)
Fixpoint split (sep : ascii) (s : string) : list string :=
  match s with
  | EmptyString => [EmptyString]
  | String c rest =>
      if Ascii.eqb c sep then EmptyString :: split sep rest
      else match split sep rest with
           | piece :: pieces => String c piece :: pieces
           | [] => [String c EmptyString]
           end
  end.

(** The characters [str.strip()] removes: space, \t, \n, \v, \f, \r. *)
Definition is_space (c : ascii) : bool :=
  let n := nat_of_ascii c in
  Nat.eqb n 32 || (Nat.leb 9 n && Nat.leb n 13).

Fixpoint lstrip (s : string) : string :=
  match s with
  | EmptyString => EmptyString
  | String c rest => if is_space c then lstrip rest else s
  end.

Fixpoint rstrip (s : string) : string :=
  match s with
  | EmptyString => EmptyString
  | String c rest =>
      match rstrip rest with
      | EmptyString => if is_space c then EmptyString else String c EmptyString
      | kept => String c kept
      end
  end.

Definition strip (s : string) : string := rstrip (lstrip s).

(** [s.replace(c, "")] for a single character [c]. *)
Fixpoint remove (c : ascii) (s : string) : string :=
  match s with
  | EmptyString => EmptyString
  | String d rest =>
      if Ascii.eqb d c then remove c rest else String d (remove c rest)
  end.

(** [s.split()] without argument: the maximal runs of characters that are
    not whitespace.  The program never calls it; it is the reading of
    "whitespace-separated tokens" that the parser is compared with. *)
Fixpoint ws_tokens_from (cur : option string) (s : string) : list string :=
  match s with
  | EmptyString => match cur with Some t => [t] | None => [] end
  | String c rest =>
      if is_space c
      then match cur with
           | Some t => t :: ws_tokens_from None rest
           | None => ws_tokens_from None rest
           end
      else ws_tokens_from
             (Some (match cur with
                    | Some t => t +:+ String c EmptyString
                    | None => String c EmptyString
                    end)) rest
  end.

Definition ws_tokens (s : string) : list string := ws_tokens_from None s.

End PyStr.

(** ** The world the program runs in *)

(** A row of the MySQL table [macdb], columns in the order of the INSERT
    statement of [open_session].  Times are clock readings. *)
Record Row := mkRow {
  r_mac : string;
  r_ip : string;
  r_server_hostname : string;
  r_start_time : float;
  r_end_time : option float;
  r_known_connected : float
}.

(** The SQL statements the program sends. *)
Inductive statement :=
| UpdateEndByIp (now : float) (ip host : string)
| UpdateEndByMac (now : float) (mac host : string)
| InsertRow (r : Row)
| UpdateKnown (now : float) (ip mac host : string).

(** One entry of the parser's output: the dict with the keys "hostname",
    "ip", "mac" and "interface". *)
Record Entry := mkEntry {
  e_hostname : string;
  e_ip : string;
  e_mac : string;
  e_interface : string
}.

(** Calls to the external collaborators, in the order they are made. *)
Inductive event :=
| Statsd_incr (name : string)
| Db_query (q : statement)
| Redis_rpush (key value : string)
| Redis_get (key : string)
| Redis_set (key : string) (value : float)
| Redis_mset (key : string) (value : float)
| Redis_delete (key : string)
| Redis_sismember (key member : string)
| Redis_sadd (key member : string)
| Redis_exists (key : string)
| Redis_rename (src dst : string)
| Redis_sdiff (key other : string)
| Redis_smembers (key : string)
| Print (text : string)
| Start_response (status : string).

(** The program uses three families of Redis keys, "macdb-connected-..."
    for sets, "macdb-update-tmp-..." for scalars and "ip-resolve-queue" for
    a list; they differ in their first seven characters, so a key never
    holds values of two types and the keyspace is kept as one map per
    type.  [clock] and [rng] are the readings the wall clock and the random
    generator will give, [ticks] and [rolls] count the readings taken.
    A reading is a binary64 number, as [time.time()] and [random.random()]
    return it; [datetime.now()] is taken to give the same reading, which
    the program only copies.  A value read back from Redis is the value
    that was stored. *)
Record World := mkWorld {
  macdb : list Row;
  sets : gmap string (gset string);
  scalars : gmap string float;
  queues : gmap string (list string);
  trace : list event;
  clock : nat -> float;
  ticks : nat;
  rng : nat -> float;
  rolls : nat
}.

Inductive exn := AttributeError | ValueError | ResponseError.

Inductive res (A : Type) :=
| Ok (a : A)
| Raise (e : exn).
Arguments Ok {A} a.
Arguments Raise {A} e.

Definition M (A : Type) : Type := World -> res A * World.

Definition ret {A} (a : A) : M A := fun w => (Ok a, w).

Definition raise {A} (e : exn) : M A := fun w => (Raise e, w).

Definition bind {A B} (m : M A) (k : A -> M B) : M B :=
  fun w => match m w with
           | (Ok a, w') => k a w'
           | (Raise e, w') => (Raise e, w')
           end.

Notation "x <- m ;; k" := (bind m (fun x => k))
  (at level 100, m at next level, right associativity).
Notation "m ;;; k" := (bind m (fun _ => k))
  (at level 100, right associativity).

(** A [for] loop over a list. *)
Fixpoint for_each {A} (l : list A) (body : A -> M unit) : M unit :=
  match l with
  | [] => ret tt
  | x :: rest => body x ;;; for_each rest body
  end.

Definition log (e : event) (w : World) : World :=
  mkWorld (macdb w) (sets w) (scalars w) (queues w) (trace w ++ [e])%list
          (clock w) (ticks w) (rng w) (rolls w).

Definition with_macdb (db : list Row) (w : World) : World :=
  mkWorld db (sets w) (scalars w) (queues w) (trace w)
          (clock w) (ticks w) (rng w) (rolls w).

Definition with_sets (s : gmap string (gset string)) (w : World) : World :=
  mkWorld (macdb w) s (scalars w) (queues w) (trace w)
          (clock w) (ticks w) (rng w) (rolls w).

Definition with_scalars (s : gmap string float) (w : World) : World :=
  mkWorld (macdb w) (sets w) s (queues w) (trace w)
          (clock w) (ticks w) (rng w) (rolls w).

Definition with_queues (q : gmap string (list string)) (w : World) : World :=
  mkWorld (macdb w) (sets w) (scalars w) q (trace w)
          (clock w) (ticks w) (rng w) (rolls w).

(** *** statsd, stdout, the clock and the random generator *)

Definition statsd_incr (name : string) : M unit :=
  fun w => (Ok tt, log (Statsd_incr name) w).

Definition print (text : string) : M unit :=
  fun w => (Ok tt, log (Print text) w).

(** [datetime.datetime.now()] and [time.time()] read the same clock. *)
Definition read_clock : M float :=
  fun w => (Ok (clock w (ticks w)),
            mkWorld (macdb w) (sets w) (scalars w) (queues w) (trace w)
                    (clock w) (S (ticks w)) (rng w) (rolls w)).

Definition datetime_now : M float := read_clock.
Definition time_time : M float := read_clock.

Definition random_random : M float :=
  fun w => (Ok (rng w (rolls w)),
            mkWorld (macdb w) (sets w) (scalars w) (queues w) (trace w)
                    (clock w) (ticks w) (rng w) (S (rolls w))).

(** *** MySQL: the table [macdb] *)

Definition is_open (r : Row) : bool :=
  match r_end_time r with
  | None => true
  | Some _ => false
  end.

Definition set_end_time (t : float) (r : Row) : Row :=
  mkRow (r_mac r) (r_ip r) (r_server_hostname r) (r_start_time r) (Some t)
        (r_known_connected r).

Definition set_known_connected (t : float) (r : Row) : Row :=
  mkRow (r_mac r) (r_ip r) (r_server_hostname r) (r_start_time r)
        (r_end_time r) t.

(** The WHERE clauses. *)
Definition open_with_ip (ip host : string) (r : Row) : bool :=
  String.eqb (r_ip r) ip && String.eqb (r_server_hostname r) host && is_open r.

Definition open_with_mac (mac host : string) (r : Row) : bool :=
  String.eqb (r_mac r) mac && String.eqb (r_server_hostname r) host
  && is_open r.

Definition session_of (ip mac host : string) (r : Row) : bool :=
  String.eqb (r_ip r) ip && String.eqb (r_mac r) mac
  && String.eqb (r_server_hostname r) host.

Definition update_where (p : Row -> bool) (f : Row -> Row) (db : list Row)
  : list Row :=
  map (fun r => if p r then f r else r) db.

Definition execute (q : statement) (db : list Row) : list Row :=
  match q with
  | UpdateEndByIp now ip host =>
      update_where (open_with_ip ip host) (set_end_time now) db
  | UpdateEndByMac now mac host =>
      update_where (open_with_mac mac host) (set_end_time now) db
  | InsertRow r => (db ++ [r])%list
  | UpdateKnown now ip mac host =>
      update_where (session_of ip mac host) (set_known_connected now) db
  end.

(** [self.db.query(...)] followed by [self.db.store_result()]. *)
Definition db_query (q : statement) : M unit :=
  fun w => (Ok tt, log (Db_query q) (with_macdb (execute q (macdb w)) w)).

(** *** Redis *)

Definition members (k : string) (w : World) : gset string :=
  default ∅ (sets w !! k).

Definition key_exists (k : string) (w : World) : bool :=
  bool_decide (is_Some (sets w !! k))
  || bool_decide (is_Some (scalars w !! k))
  || bool_decide (is_Some (queues w !! k)).

(** RENAME in one of the three maps: the value moves and the destination
    is overwritten, whatever it held. *)
Definition rename_in {V} (src dst : string) (m : gmap string V)
  : gmap string V :=
  match m !! src with
  | Some v => <[dst := v]> (delete src m)
  | None => delete dst m
  end.

Definition redis_rpush (k v : string) : M unit :=
  fun w => (Ok tt,
            log (Redis_rpush k v)
                (with_queues (insert (M:=gmap string (list string)) k
                                (default [] (queues w !! k) ++ [v])%list
                                (queues w)) w)).

Definition redis_get (k : string) : M (option float) :=
  fun w => (Ok (scalars w !! k), log (Redis_get k) w).

Definition redis_set (k : string) (v : float) : M unit :=
  fun w => (Ok tt, log (Redis_set k v)
                       (with_scalars (<[k := v]> (scalars w)) w)).

Definition redis_mset (k : string) (v : float) : M unit :=
  fun w => (Ok tt, log (Redis_mset k v)
                       (with_scalars (<[k := v]> (scalars w)) w)).

Definition redis_delete (k : string) : M unit :=
  fun w => (Ok tt,
            log (Redis_delete k)
                (with_sets (delete k (sets w))
                   (with_scalars (delete k (scalars w))
                      (with_queues (delete k (queues w)) w)))).

Definition redis_sismember (k m : string) : M bool :=
  fun w => (Ok (bool_decide (m ∈ members k w)), log (Redis_sismember k m) w).

Definition redis_sadd (k m : string) : M unit :=
  fun w => (Ok tt, log (Redis_sadd k m)
                       (with_sets (<[k := {[m]} ∪ members k w]> (sets w)) w)).

Definition redis_exists (k : string) : M bool :=
  fun w => (Ok (key_exists k w), log (Redis_exists k) w).

Definition redis_rename (src dst : string) : M unit :=
  fun w =>
    if key_exists src w
    then (Ok tt,
          log (Redis_rename src dst)
              (with_sets (rename_in src dst (sets w))
                 (with_scalars (rename_in src dst (scalars w))
                    (with_queues (rename_in src dst (queues w)) w))))
    else (Raise ResponseError, log (Redis_rename src dst) w).

(** SDIFF and SMEMBERS give a Python set; the loops of [finish] visit it in
    the order of [elements]. *)
Definition redis_sdiff (k other : string) : M (gset string) :=
  fun w => (Ok (members k w ∖ members other w), log (Redis_sdiff k other) w).

Definition redis_smembers (k : string) : M (gset string) :=
  fun w => (Ok (members k w), log (Redis_smembers k) w).

(** ** mac_db_parser.py *)

Module Parser.

(** A parser object: [afile] holds the lines the input stream has not
    given yet, [_entries] is [None] as long as the attribute has not
    been assigned. *)
Record MacDbParser := mkParser {
  afile : list string;
  _entries : option (list Entry)
}.

Definition tokens (line : string) : list string :=
  PyStr.split " " (PyStr.strip line).

Definition entry_of (line : list string) : Entry :=
  mkEntry (nth 0 line "")
          (PyStr.remove ")" (PyStr.remove "(" (nth 1 line "")))
          (nth 3 line "")
          (nth 5 line "").

(** The loop of [entries]: [acc] is [self._entries] as filled so far. *)
Fixpoint read_lines (lines : list string) (acc : list Entry)
  : M (list Entry * MacDbParser) :=
  match lines with
  | [] => ret (acc, mkParser [] (Some acc))
  | l :: rest =>
      let line := tokens l in
      if Nat.ltb (length line) 6
      then print "Invalid ARP file format." ;;;
           ret ([], mkParser rest (Some acc))
      else read_lines rest (acc ++ [entry_of line])%list
  end.

(** The property [entries]: its value and the object afterwards. *)
Definition entries (self : MacDbParser) : M (list Entry * MacDbParser) :=
  match _entries self with
  | None => raise AttributeError
  | Some (e :: cached) => ret (e :: cached, self)
  | Some [] => read_lines (afile self) []
  end.

Definition init (input : list string) : M MacDbParser :=
  let self := mkParser input None in
  r <- entries self ;;
  ret (mkParser (afile (snd r)) (Some (fst r))).

(** [item.get(arg)] on an entry: the dict has four keys; any other key
    gives Python's [None]. *)
Definition field (item : Entry) (arg : string) : option string :=
  if String.eqb arg "hostname" then Some (e_hostname item)
  else if String.eqb arg "ip" then Some (e_ip item)
  else if String.eqb arg "mac" then Some (e_mac item)
  else if String.eqb arg "interface" then Some (e_interface item)
  else None.

(** The inner loop of [get]: the item stays valid as long as no argument
    names a missing key or a value equal to the item's.  The keyword
    arguments are taken with string values. *)
Definition item_valid (kwargs : list (string * string)) (item : Entry)
  : bool :=
  forallb (fun kv => match field item (fst kv) with
                     | None => false
                     | Some v => negb (String.eqb v (snd kv))
                     end) kwargs.

Definition get (self : MacDbParser) (kwargs : list (string * string))
  : M (list Entry * MacDbParser) :=
  r <- entries self ;;
  ret (List.filter (item_valid kwargs) (fst r), snd r).

End Parser.

(** ** mac_update_wsgi.py: class MacDbUpdate *)

Module MacDbUpdate.

Definition connected_key (server_hostname : string) : string :=
  "macdb-connected-" +:+ server_hostname.

Definition tmp_key (server_hostname : string) : string :=
  connected_key server_hostname +:+ "-tmp".

Definition presence_key (ip_addr mac : string) : string :=
  ip_addr +:+ "_" +:+ mac.

Definition update_prefix (server_hostname ip_addr mac : string) : string :=
  "macdb-update-tmp-" +:+ server_hostname +:+ "-" +:+ ip_addr +:+ "-"
  +:+ mac +:+ "-".

Definition open_session (server_hostname ip_addr mac : string)
    (start_time : float) (end_time : option float) : M unit :=
  statsd_incr "mac.update.session.open" ;;;
  now <- datetime_now ;;
  db_query (UpdateEndByIp now ip_addr server_hostname) ;;;
  db_query (UpdateEndByMac now mac server_hostname) ;;;
  db_query (InsertRow (mkRow mac ip_addr server_hostname start_time
                             end_time now)) ;;;
  redis_rpush "ip-resolve-queue" ip_addr.

Definition close_session (server_hostname ip_addr mac : string)
    (end_time : option float) : M unit :=
  statsd_incr "mac.update.session.close" ;;;
  now <- datetime_now ;;
  let end_time := match end_time with
                  | None => now
                  | Some t => t
                  end in
  db_query (UpdateEndByIp now ip_addr server_hostname) ;;;
  db_query (UpdateEndByMac now mac server_hostname).

Definition update_session (server_hostname ip_addr mac : string) : M unit :=
  now <- datetime_now ;;
  let redis_key_prefix := update_prefix server_hostname ip_addr mac in
  last_update <- redis_get (redis_key_prefix +:+ "last_update") ;;
  let last_update := match last_update with
                     | Some t => t
                     | None => 0%float
                     end in
  r <- random_random ;;
  refresh <- (if PrimFloat.ltb r 0.18
              then ret true
              else t <- time_time ;;
                   j <- random_random ;;
                   ret (PrimFloat.ltb (120 + j * 20) (t - last_update))) ;;
  if refresh : bool
  then statsd_incr "mac.update.session.update" ;;;
       db_query (UpdateKnown now ip_addr mac server_hostname) ;;;
       redis_delete (redis_key_prefix +:+ "known_connected") ;;;
       t <- time_time ;;
       redis_set (redis_key_prefix +:+ "last_update") t
  else statsd_incr "mac.update.session.postpone_update" ;;;
       redis_mset (redis_key_prefix +:+ "known_connected") now.

Definition update (server_hostname : string) (details : Entry) : M unit :=
  statsd_incr "mac.update.update" ;;;
  let ip_addr := e_ip details in
  let mac := e_mac details in
  let redis_key := connected_key server_hostname in
  let redis_val := presence_key ip_addr mac in
  connected <- redis_sismember redis_key redis_val ;;
  (if negb connected
   then start_time <- datetime_now ;;
        open_session server_hostname ip_addr mac start_time None
   else update_session server_hostname ip_addr mac) ;;;
  redis_sadd (redis_key +:+ "-tmp") redis_val.

(** [ip_addr, mac = ip_mac.split("_")] followed by [close_session]: the
    unpacking raises ValueError unless there are exactly two pieces. *)
Definition close_key (server_hostname ip_mac : string) : M unit :=
  match PyStr.split "_" ip_mac with
  | [ip_addr; mac] => close_session server_hostname ip_addr mac None
  | _ => raise ValueError
  end.

Definition finish (server_hostname : string) : M unit :=
  let cdb_key := connected_key server_hostname in
  old <- redis_exists cdb_key ;;
  if negb old
  then new <- redis_exists (cdb_key +:+ "-tmp") ;;
       if new : bool
       then redis_rename (cdb_key +:+ "-tmp") cdb_key
       else ret tt
  else new <- redis_exists (cdb_key +:+ "-tmp") ;;
       if new : bool
       then disappeared_macs <- redis_sdiff cdb_key (cdb_key +:+ "-tmp") ;;
            for_each (elements disappeared_macs)
                     (close_key server_hostname) ;;;
            redis_rename (cdb_key +:+ "-tmp") cdb_key
       else old_macs <- redis_smembers cdb_key ;;
            for_each (elements old_macs) (close_key server_hostname) ;;;
            redis_delete cdb_key.

End MacDbUpdate.

(** ** mac_update_wsgi.py: the WSGI endpoint *)

Module Wsgi.

Definition chars (s : string) : list ascii := list_ascii_of_string s.

(** The class [A-Z\d-] under re.IGNORECASE, on byte strings. *)
Definition in_label_class (c : ascii) : bool :=
  let n := nat_of_ascii c in
  (Nat.leb 65 n && Nat.leb n 90) || (Nat.leb 97 n && Nat.leb n 122)
  || (Nat.leb 48 n && Nat.leb n 57) || Nat.eqb n 45.

Definition is_hyphen (c : ascii) : bool := Nat.eqb (nat_of_ascii c) 45.

Definition is_newline (c : ascii) : bool := Nat.eqb (nat_of_ascii c) 10.

(** [$] after [m] characters: the end of the string, or just before a
    newline that ends it. *)
Definition at_dollar (x : list ascii) (m : nat) : bool :=
  Nat.eqb m (length x)
  || (Nat.eqb (S m) (length x)
      && match nth_error x m with
         | Some c => is_newline c
         | None => false
         end).

(** [allowed.match(x)] for "(?!-)[A-Z\d-]{1,63}(?<!-)$" matched from the
    start of [x]: some number [m] of class characters, between 1 and 63,
    the first and the last of them no hyphen, ends at [$]. *)
Definition match_with (x : list ascii) (m : nat) : bool :=
  Nat.leb m (length x)
  && forallb in_label_class (firstn m x)
  && match nth_error x 0 with
     | Some c => negb (is_hyphen c)
     | None => true
     end
  && match nth_error x (m - 1) with
     | Some c => negb (is_hyphen c)
     | None => true
     end
  && at_dollar x m.

Definition allowed_match (x : string) : bool :=
  existsb (match_with (chars x)) (seq 1 63).

Definition is_valid_hostname (hostname : string) : bool :=
  if Nat.ltb 255 (String.length hostname) then false
  else forallb allowed_match (PyStr.split "." hostname).

Record Environ := mkEnviron {
  QUERY_STRING : string;
  wsgi_input : list string
}.

(** The response body: the literal text, or [str(macs.entries)]. *)
Inductive chunk :=
| Text (s : string)
| Str_of_entries (l : list Entry).

Definition start_response (status : string) : M unit :=
  fun w => (Ok tt, log (Start_response status) w).

(** The loop over the items of the query string; [hostname] is [None]
    for Python's [False]. *)
Fixpoint scan_query (items : list string) (hostname : option string)
  : option string :=
  match items with
  | [] => hostname
  | item :: rest =>
      match PyStr.split "=" item with
      | [name; value] =>
          if String.eqb name "server" && is_valid_hostname value
          then scan_query rest (Some value)
          else scan_query rest hostname
      | _ => scan_query rest hostname
      end
  end.

(** The loop over [macs.entries]. *)
Definition feed (server_hostname : string) (macs : list Entry) : M unit :=
  for_each macs
    (fun mac => if String.eqb (e_mac mac) "(incomplete)" then ret tt
                else MacDbUpdate.update server_hostname mac).

Definition application (environ : Environ) : M (list chunk) :=
  statsd_incr "mac.update.main.counter" ;;;
  start_response "200 OK" ;;;
  let query_string := PyStr.split "&" (QUERY_STRING environ) in
  match scan_query query_string None with
  | None | Some EmptyString => ret [Text "Invalid hostname"]
  | Some hostname =>
      macs <- Parser.init (wsgi_input environ) ;;
      r <- Parser.entries macs ;;
      feed hostname (fst r) ;;;
      MacDbUpdate.finish hostname ;;;
      r' <- Parser.entries (snd r) ;;
      ret [Str_of_entries (fst r')]
  end.

End Wsgi.

(** ** Sample data *)

(** A world with an empty table and an empty Redis, a clock that gives
    0, 1, 2, ... and a random generator that always gives [roll]. *)
Definition float_of_nat (n : nat) : float :=
  PrimFloat.of_uint63 (Uint63.of_Z (Z.of_nat n)).

Definition fresh_world (roll : float) : World :=
  mkWorld [] ∅ ∅ ∅ [] float_of_nat 0 (fun _ => roll) 0.

Definition sample_world : World := fresh_world 0.5.

(** One cycle of the endpoint once the entries are known: the loop over
    the entries, then [finish]. *)
Definition cycle (server_hostname : string) (macs : list Entry) : M unit :=
  Wsgi.feed server_hostname macs ;;; MacDbUpdate.finish server_hostname.

(** The calls [closeSession(ip, mac)] a log shows: the counter
    "mac.update.session.close" followed by the two UPDATE statements. *)
Fixpoint session_closes (t : list event) : list (string * string) :=
  match t with
  | [] => []
  | e :: rest =>
      match e, rest with
      | Statsd_incr name,
        Db_query (UpdateEndByIp _ ip _) :: Db_query (UpdateEndByMac _ mac _) :: _ =>
          if String.eqb name "mac.update.session.close"
          then (ip, mac) :: session_closes rest
          else session_closes rest
      | _, _ => session_closes rest
      end
  end.

(** The rows a log shows inserted. *)
Fixpoint inserted_rows (t : list event) : list Row :=
  match t with
  | [] => []
  | Db_query (InsertRow r) :: rest => r :: inserted_rows rest
  | _ :: rest => inserted_rows rest
  end.

(** What the two UPDATE statements of [open_session] and [close_session]
    do together: every open row of the host whose ip matches, and every
    open row of the host whose mac matches, gets [now] as its end time. *)
Definition close_matching (now : float) (ip mac host : string) (db : list Row)
  : list Row :=
  map (fun r => if open_with_ip ip host r || open_with_mac mac host r
                then set_end_time now r else r) db.

(** The two parts of a presence key, as [finish] takes them; a key that
    does not split in two at "_" makes the unpacking raise. *)
Definition key_parts (ip_mac : string) : string * string :=
  match PyStr.split "_" ip_mac with
  | [ip_addr; mac] => (ip_addr, mac)
  | _ => (EmptyString, EmptyString)
  end.

Definition well_formed_key (ip_mac : string) : Prop :=
  exists ip_addr mac, PyStr.split "_" ip_mac = [ip_addr; mac].

(** [close_session] for each pair of a list, in order. *)
Definition close_sessions (host : string) (pairs : list (string * string))
  : M unit :=
  for_each pairs (fun p => MacDbUpdate.close_session host (fst p) (snd p) None).

(** The table after [close_session] for each pair of a list, the first
    at clock reading [t], the next at [S t], and so on. *)
Fixpoint close_all (clk : nat -> float) (t : nat) (host : string)
    (pairs : list (string * string)) (db : list Row) : list Row :=
  match pairs with
  | [] => db
  | (ip, mac) :: rest =>
      close_all clk (S t) host rest (close_matching (clk t) ip mac host db)
  end.

(** An event that is no INSERT. *)
Definition no_insert (e : event) : Prop := inserted_rows [e] = [].

(** The Redis part of a world. *)
Definition redis_of (w : World)
  : gmap string (gset string) * gmap string float * gmap string (list string) :=
  (sets w, scalars w, queues w).

(** [w'] has the Redis content of [w]. *)
Definition same_redis (w w' : World) : Prop := redis_of w' = redis_of w.

(** The two scalar keys of a session. *)
Definition last_update_key (host ip mac : string) : string :=
  MacDbUpdate.update_prefix host ip mac +:+ "last_update".

Definition known_connected_key (host ip mac : string) : string :=
  MacDbUpdate.update_prefix host ip mac +:+ "known_connected".

(** The test of the debounce policy on the first random value [r], the
    second clock reading [t], the stored time [last] and the second random
    value [j]. *)
Definition refresh_due (r t last j : float) : Prop :=
  PrimFloat.ltb r 0.18 = true
  \/ PrimFloat.ltb (120 + j * 20) (t - last) = true.

(** The number a binary64 value stands for, when it is finite. *)
Definition exact (f : float) : option Q :=
  match Prim2SF f with
  | S754_zero _ => Some 0%Q
  | S754_finite s m e =>
      Some (inject_Z (if s then Z.neg m else Z.pos m) * Qpower 2 e)%Q
  | _ => None
  end.

(** The binary64 value [f] is finite and stands for the number [q]. *)
Definition stands_for (f : float) (q : Q) : Prop :=
  match exact f with
  | Some x => (x == q)%Q
  | None => False
  end.

(** The test the policy would make on the numbers themselves, without
    rounding. *)
Definition refresh_due_exact (r t last j : Q) : Prop :=
  (r < 0.18 \/ 120 + j * 20 < t - last)%Q.

(** The world [update_session] leaves when it refreshes, having taken
    [n] clock readings and [k] random values before the final reading. *)
Definition refreshed (host ip mac : string) (n k : nat) (w : World) : World :=
  mkWorld (update_where (session_of ip mac host)
                        (set_known_connected (clock w (ticks w))) (macdb w))
          (delete (known_connected_key host ip mac) (sets w))
          (<[last_update_key host ip mac := clock w (ticks w + n)]>
             (delete (known_connected_key host ip mac) (scalars w)))
          (delete (known_connected_key host ip mac) (queues w))
          (trace w ++ [Redis_get (last_update_key host ip mac);
                       Statsd_incr "mac.update.session.update";
                       Db_query (UpdateKnown (clock w (ticks w)) ip mac host);
                       Redis_delete (known_connected_key host ip mac);
                       Redis_set (last_update_key host ip mac)
                                 (clock w (ticks w + n))])%list
          (clock w) (S (ticks w + n)) (rng w) (rolls w + k).

(** The world [update_session] leaves when it postpones. *)
Definition postponed (host ip mac : string) (w : World) : World :=
  mkWorld (macdb w) (sets w)
          (<[known_connected_key host ip mac := clock w (ticks w)]> (scalars w))
          (queues w)
          (trace w ++ [Redis_get (last_update_key host ip mac);
                       Statsd_incr "mac.update.session.postpone_update";
                       Redis_mset (known_connected_key host ip mac)
                                  (clock w (ticks w))])%list
          (clock w) (S (S (ticks w))) (rng w) (S (S (rolls w))).

(** The Redis commands that read the value under [k]. *)
Definition reads (k : string) (e : event) : bool :=
  match e with
  | Redis_get k' | Redis_sismember k' _ | Redis_exists k'
  | Redis_smembers k' | Redis_rename k' _ => String.eqb k' k
  | Redis_sdiff a b => String.eqb a k || String.eqb b k
  | _ => false
  end.

(** The events of a call to [close_session]. *)
Definition close_event (e : event) : Prop :=
  match e with
  | Statsd_incr name => name = "mac.update.session.close"
  | Db_query (UpdateEndByIp _ _ _) | Db_query (UpdateEndByMac _ _ _) => True
  | _ => False
  end.

(** The operations of the engine, as calls. *)
Inductive call :=
| Open_session (host ip mac : string) (start_time : float)
    (end_time : option float)
| Close_session (host ip mac : string) (end_time : option float)
| Update_session (host ip mac : string)
| Update (host : string) (details : Entry)
| Finish (host : string).

Definition run_call (c : call) : M unit :=
  match c with
  | Open_session host ip mac start_time end_time =>
      MacDbUpdate.open_session host ip mac start_time end_time
  | Close_session host ip mac end_time =>
      MacDbUpdate.close_session host ip mac end_time
  | Update_session host ip mac => MacDbUpdate.update_session host ip mac
  | Update host details => MacDbUpdate.update host details
  | Finish host => MacDbUpdate.finish host
  end.

(** A sequence of calls; an exception ends a call, not the sequence. *)
Fixpoint run_calls (cs : list call) (w : World) : World :=
  match cs with
  | [] => w
  | c :: rest => run_calls rest (snd (run_call c w))
  end.

(** The events a run added to the log of [w]. *)
Definition new_events (w w' : World) : list event :=
  drop (length (trace w)) (trace w').

(** [w'] has the log of [w] followed by events that satisfy [P]. *)
Definition emits (P : event -> Prop) (w w' : World) : Prop :=
  exists d, trace w' = (trace w ++ d)%list /\ Forall P d.

(** A computation relates every world to the world it leaves. *)
Definition respects (R : relation World) {A} (m : M A) : Prop :=
  forall w, R w (snd (m w)).

(** The invariant of the table: of the rows of a host without end time,
    at most one has a given ip and at most one has a given mac. *)
Definition at_most_one_open (db : list Row) : Prop :=
  forall host addr,
    length (List.filter (open_with_ip addr host) db) <= 1
    /\ length (List.filter (open_with_mac addr host) db) <= 1.

(** [w'] has a table with the invariant if [w] has. *)
Definition keeps_invariant (w w' : World) : Prop :=
  at_most_one_open (macdb w) -> at_most_one_open (macdb w').

(** Cycles of several hosts, one after the other; an exception ends a
    cycle, not the sequence. *)
Fixpoint run_cycles (cs : list (string * list Entry)) (w : World) : World :=
  match cs with
  | [] => w
  | (host, macs) :: rest => run_cycles rest (snd (cycle host macs w))
  end.

(** The open rows of a host. *)
Definition open_rows_of (host : string) (db : list Row) : list Row :=
  List.filter (fun r => String.eqb (r_server_hostname r) host && is_open r) db.

(** The rows a loop of [update] inserts when every entry is new: one per
    entry, the start time read at [t], the time of the INSERT at [S t]. *)
Fixpoint opened_rows (host : string) (clk : nat -> float) (t : nat)
    (macs : list Entry) : list Row :=
  match macs with
  | [] => []
  | d :: rest =>
      mkRow (e_mac d) (e_ip d) host (clk t) None (clk (S t))
      :: opened_rows host clk (S (S t)) rest
  end.

(** An entry the loop of the endpoint passes on to [update]. *)
Definition valid_entry (d : Entry) : Prop := e_mac d <> "(incomplete)".

(** An event that is not the counter of [close_session]. *)
Definition no_close (e : event) : Prop :=
  match e with
  | Statsd_incr name => name <> "mac.update.session.close"
  | _ => True
  end.

(** An item of the query string that gives the endpoint its host:
    "server=" followed by a valid hostname. *)
Definition names_valid_server (item : string) : Prop :=
  exists value, PyStr.split "=" item = ["server"; value]
                /\ Wsgi.is_valid_hostname value = true.

(** The host a statement is about: the one of its WHERE clause or of the
    row it inserts. *)
Definition statement_host (q : statement) : string :=
  match q with
  | UpdateEndByIp _ _ host | UpdateEndByMac _ _ host
  | UpdateKnown _ _ _ host => host
  | InsertRow r => r_server_hostname r
  end.

Definition call_host (c : call) : string :=
  match c with
  | Open_session host _ _ _ _ | Close_session host _ _ _
  | Update_session host _ _ | Update host _ | Finish host => host
  end.

(** What a row may become under the operations for [host]: its mac, ip,
    host and start time stay, an end time it has stays, and a row of
    another host stays as it is. *)
Definition row_kept (host : string) (r r' : Row) : Prop :=
  r_mac r' = r_mac r /\ r_ip r' = r_ip r
  /\ r_server_hostname r' = r_server_hostname r
  /\ r_start_time r' = r_start_time r
  /\ (forall t, r_end_time r = Some t -> r_end_time r' = Some t)
  /\ (r_server_hostname r <> host -> r' = r).

(** The table of [w'] has the rows of [w], each kept in its place, then
    rows of [host]. *)
Definition history_kept (host : string) (w w' : World) : Prop :=
  exists kept added,
    macdb w' = (kept ++ added)%list
    /\ Forall2 (row_kept host) (macdb w) kept
    /\ Forall (fun r => r_server_hostname r = host) added.

(** The work queue of [w'] is the one of [w] with values pushed at its
    end. *)
Definition queue_grows (w w' : World) : Prop :=
  exists pushed,
    default [] (queues w' !! "ip-resolve-queue")
    = (default [] (queues w !! "ip-resolve-queue") ++ pushed)%list.

(** The presence keys of the entries the loop of the endpoint passes on
    to [update]. *)
Definition reported_keys (macs : list Entry) : gset string :=
  list_to_set
    (map (fun d => MacDbUpdate.presence_key (e_ip d) (e_mac d))
         (List.filter (fun d => negb (String.eqb (e_mac d) "(incomplete)"))
                      macs)).

(** An event of a cycle that only refreshes: no UPDATE of an end time, no
    INSERT, no push on the work queue and neither the counter of
    [open_session] nor the one of [close_session]. *)
Definition only_refresh (e : event) : Prop :=
  match e with
  | Db_query (UpdateKnown _ _ _ _) => True
  | Db_query _ => False
  | Redis_rpush _ _ => False
  | Statsd_incr name =>
      name <> "mac.update.session.open" /\ name <> "mac.update.session.close"
  | _ => True
  end.

(** A character a valid hostname may have: one of the class of the
    labels, a dot, or a newline. *)
Definition hostname_char (c : ascii) : bool :=
  Wsgi.in_label_class c || Ascii.eqb c "." || Wsgi.is_newline c.

(** The entry the parser makes of a line. *)
Definition line_entry (l : string) : Entry :=
  Parser.entry_of (Parser.tokens l).

(** [c in s]. *)
Definition has_char (c : ascii) (s : string) : bool :=
  existsb (Ascii.eqb c) (list_ascii_of_string s).

(** The set under the key [k] is in [w'] what it is in [w]. *)
Definition set_kept (k : string) (w w' : World) : Prop :=
  sets w' !! k = sets w !! k.

(** An entry whose ip and mac have no underscore. *)
Definition plain_entry (d : Entry) : Prop :=
  has_char "_" (e_ip d) = false /\ has_char "_" (e_mac d) = false.

(** A line the parser takes as malformed. *)
Definition short_line (l : string) : Prop := length (Parser.tokens l) < 6.

(** ** The parser *)

Section ParserFacts.

Import Parser.

(** C7: constructing the parser raises AttributeError whatever the input,
    since the property [entries] reads [self._entries] before it was ever
    assigned; no construction returns a parser, hence no entry list. *)
Theorem parser_construction_raises (input : list string) (w : World) :
  Parser.init input w = (Raise AttributeError, w)
  /\ (forall p w', Parser.init input w <> (Ok p, w')).
Proof.
  split; [reflexivity|]. intros p w' H. discriminate H.
Qed.

(** C8: the batch of the one line "a  b c d e", which has five
    whitespace-separated tokens, is not abandoned.  Constructing the
    parser on it raises AttributeError, so the endpoint, asked by the host
    fw1, raises as well instead of taking the upload as empty; and on a
    parser object whose cache is already the empty list, [entries] counts
    the six pieces the line has when split at each single space, prints
    nothing and keeps the line as an entry with an empty ip. *)
Lemma short_line_batch_is_not_abandoned :
  let input := ["a  b c d e"] in
  Exists (fun l => length (PyStr.ws_tokens l) < 6) input
  /\ Parser.init input sample_world = (Raise AttributeError, sample_world)
  /\ fst (Wsgi.application (Wsgi.mkEnviron "server=fw1" input) sample_world)
     = Raise AttributeError
  /\ entries (mkParser input (Some [])) sample_world
     = (Ok ([mkEntry "a" "" "c" "e"],
            mkParser [] (Some [mkEntry "a" "" "c" "e"])), sample_world).
Proof.
  split; [|repeat split].
  apply Exists_cons_hd. vm_compute. lia.
Qed.

End ParserFacts.

(** [run], for an equation between a computation applied to a world given
    by its fields and the world expected: both sides are replaced by what
    they compute.  [same_world] then compares two worlds whose logs are
    bracketed differently. *)
Ltac run :=
  match goal with
  | |- ?lhs = ?rhs =>
      let l := eval cbv beta iota zeta delta
                 [MacDbUpdate.open_session MacDbUpdate.close_session
                  MacDbUpdate.update_session MacDbUpdate.update
                  MacDbUpdate.finish MacDbUpdate.close_key
                  bind ret raise statsd_incr print datetime_now time_time
                  read_clock random_random db_query redis_rpush redis_get
                  redis_set redis_mset redis_delete redis_sismember redis_sadd
                  redis_exists redis_sdiff redis_smembers members
                  log with_macdb with_sets with_scalars with_queues execute
                  fst snd macdb sets scalars queues trace clock ticks rng rolls]
               in lhs in
      let r := eval cbv beta iota zeta delta
                 [refreshed postponed members default from_option id
                  last_update_key known_connected_key
                  fst snd macdb sets scalars queues trace clock ticks rng rolls]
               in rhs in
      transitivity l; [reflexivity|]; transitivity r; [|reflexivity]
  end.

Ltac same_world :=
  f_equal; f_equal; repeat rewrite <- app_assoc; reflexivity.

(** ** Opening and closing sessions *)

Section Sessions.

Import MacDbUpdate.

Lemma two_updates_close_matching now ip mac host db :
  update_where (open_with_mac mac host) (set_end_time now)
    (update_where (open_with_ip ip host) (set_end_time now) db)
  = close_matching now ip mac host db.
Proof.
  unfold update_where, close_matching. rewrite map_map.
  apply map_ext. intros r.
  destruct (open_with_ip ip host r) eqn:Hip; simpl.
  - unfold open_with_mac. simpl. now rewrite andb_false_r.
  - reflexivity.
Qed.

Lemma close_session_run host ip mac end_time w :
  close_session host ip mac end_time w
  = (Ok tt,
     mkWorld (close_matching (clock w (ticks w)) ip mac host (macdb w))
             (sets w) (scalars w) (queues w)
             (trace w ++ [Statsd_incr "mac.update.session.close";
                          Db_query (UpdateEndByIp (clock w (ticks w)) ip host);
                          Db_query (UpdateEndByMac (clock w (ticks w)) mac host)])
             (clock w) (S (ticks w)) (rng w) (rolls w)).
Proof.
  destruct w. run. rewrite two_updates_close_matching. same_world.
Qed.

(** C10: [close_session] stores the clock reading taken at the call as
    end time in both UPDATE statements; its [end_time] argument has no
    influence: with any value the call behaves as with the default. *)
Theorem close_session_ignores_end_time host ip mac end_time w :
  close_session host ip mac end_time w = close_session host ip mac None w
  /\ fst (close_session host ip mac end_time w) = Ok tt
  /\ macdb (snd (close_session host ip mac end_time w))
     = close_matching (clock w (ticks w)) ip mac host (macdb w)
  /\ exists before,
       trace (snd (close_session host ip mac end_time w))
       = (before ++ [Db_query (UpdateEndByIp (clock w (ticks w)) ip host);
                     Db_query (UpdateEndByMac (clock w (ticks w)) mac host)])%list.
Proof.
  rewrite !close_session_run. repeat split.
  exists (trace w ++ [Statsd_incr "mac.update.session.close"])%list.
  cbn [snd trace]. now rewrite <- app_assoc.
Qed.

Lemma open_session_run host ip mac start_time end_time w :
  open_session host ip mac start_time end_time w
  = (Ok tt,
     let now := clock w (ticks w) in
     mkWorld (close_matching now ip mac host (macdb w)
              ++ [mkRow mac ip host start_time end_time now])
             (sets w) (scalars w)
             (<["ip-resolve-queue" :=
                  default [] (queues w !! "ip-resolve-queue") ++ [ip]]>
                (queues w))
             (trace w ++ [Statsd_incr "mac.update.session.open";
                          Db_query (UpdateEndByIp now ip host);
                          Db_query (UpdateEndByMac now mac host);
                          Db_query (InsertRow (mkRow mac ip host start_time
                                                     end_time now));
                          Redis_rpush "ip-resolve-queue" ip])
             (clock w) (S (ticks w)) (rng w) (rolls w))%list.
Proof.
  destruct w. run. rewrite two_updates_close_matching. same_world.
Qed.

(** C4: [open_session(ip, mac, start_time)] closes, with the clock reading
    taken at the call, every open row of the host whose ip matches and
    every open row of the host whose mac matches, each filter whatever the
    other says; it then inserts a row without end time and, after these
    three statements, pushes the ip on "ip-resolve-queue". *)
Theorem open_session_closes_inserts_enqueues host ip mac start_time w :
  let now := clock w (ticks w) in
  let w' := snd (open_session host ip mac start_time None w) in
  fst (open_session host ip mac start_time None w) = Ok tt
  /\ macdb w'
     = (map (fun r => if open_with_ip ip host r || open_with_mac mac host r
                      then set_end_time now r else r) (macdb w)
        ++ [mkRow mac ip host start_time None now])%list
  /\ queues w'
     = <["ip-resolve-queue" :=
           (default [] (queues w !! "ip-resolve-queue") ++ [ip])%list]>
         (queues w)
  /\ trace w'
     = (trace w ++ [Statsd_incr "mac.update.session.open";
                    Db_query (UpdateEndByIp now ip host);
                    Db_query (UpdateEndByMac now mac host);
                    Db_query (InsertRow (mkRow mac ip host start_time None now));
                    Redis_rpush "ip-resolve-queue" ip])%list
  /\ sets w' = sets w /\ scalars w' = scalars w.
Proof.
  cbv zeta. rewrite open_session_run. repeat split.
Qed.

End Sessions.

(** ** Reasoning about computations *)

Section Respects.

Context (R : relation World) `{!PreOrder R}.

Lemma respects_ret {A} (a : A) : respects R (ret a).
Proof. intros w. reflexivity. Qed.

Lemma respects_raise {A} (e : exn) : respects R (@raise A e).
Proof. intros w. reflexivity. Qed.

Lemma respects_bind {A B} (m : M A) (k : A -> M B) :
  respects R m -> (forall a, respects R (k a)) -> respects R (bind m k).
Proof.
  intros Hm Hk w. unfold bind. specialize (Hm w).
  destruct (m w) as [[a|e] w1]; simpl in *.
  - etransitivity; [exact Hm|]. apply Hk.
  - exact Hm.
Qed.

Lemma respects_for_each {A} (l : list A) (body : A -> M unit) :
  (forall x, respects R (body x)) -> respects R (for_each l body).
Proof.
  intros Hbody. induction l as [|x l IH]; simpl.
  - apply respects_ret.
  - apply respects_bind; [apply Hbody|]. intros _. exact IH.
Qed.

End Respects.

#[local] Instance emits_preorder (P : event -> Prop) : PreOrder (emits P).
Proof.
  split.
  - intros w. exists []. split; [now rewrite app_nil_r|constructor].
  - intros w1 w2 w3 [d1 [H1 F1]] [d2 [H2 F2]]. exists (d1 ++ d2)%list. split.
    + rewrite H2, H1. now rewrite <- app_assoc.
    + apply Forall_app. now split.
Qed.

Lemma emits_new_events P w w' : emits P w w' -> Forall P (new_events w w').
Proof.
  intros [d [Hd Fd]]. unfold new_events. rewrite Hd.
  now rewrite drop_app_length.
Qed.

Lemma emits_log P e w w' :
  P e -> trace w' = trace w -> emits P w (log e w').
Proof.
  intros He Ht. exists [e]. split; [simpl; now rewrite Ht|].
  constructor; [exact He|constructor].
Qed.

Lemma emits_quiet P w w' : trace w' = trace w -> emits P w w'.
Proof.
  intros Ht. exists []. split; [now rewrite app_nil_r|constructor].
Qed.

Section EmitsPrimitives.

Variable P : event -> Prop.

Lemma emits_statsd_incr name :
  P (Statsd_incr name) -> respects (emits P) (statsd_incr name).
Proof. intros H w. now apply emits_log. Qed.

Lemma emits_read_clock : respects (emits P) read_clock.
Proof. intros w. now apply emits_quiet. Qed.

Lemma emits_random_random : respects (emits P) random_random.
Proof. intros w. now apply emits_quiet. Qed.

Lemma emits_db_query q : P (Db_query q) -> respects (emits P) (db_query q).
Proof. intros H w. now apply emits_log. Qed.

Lemma emits_redis_rpush k v :
  P (Redis_rpush k v) -> respects (emits P) (redis_rpush k v).
Proof. intros H w. now apply emits_log. Qed.

Lemma emits_redis_get k : P (Redis_get k) -> respects (emits P) (redis_get k).
Proof. intros H w. now apply emits_log. Qed.

Lemma emits_redis_set k v :
  P (Redis_set k v) -> respects (emits P) (redis_set k v).
Proof. intros H w. now apply emits_log. Qed.

Lemma emits_redis_mset k v :
  P (Redis_mset k v) -> respects (emits P) (redis_mset k v).
Proof. intros H w. now apply emits_log. Qed.

Lemma emits_redis_delete k :
  P (Redis_delete k) -> respects (emits P) (redis_delete k).
Proof. intros H w. now apply emits_log. Qed.

Lemma emits_redis_sismember k m :
  P (Redis_sismember k m) -> respects (emits P) (redis_sismember k m).
Proof. intros H w. now apply emits_log. Qed.

Lemma emits_redis_sadd k m :
  P (Redis_sadd k m) -> respects (emits P) (redis_sadd k m).
Proof. intros H w. now apply emits_log. Qed.

Lemma emits_redis_exists k :
  P (Redis_exists k) -> respects (emits P) (redis_exists k).
Proof. intros H w. now apply emits_log. Qed.

Lemma emits_redis_rename src dst :
  P (Redis_rename src dst) -> respects (emits P) (redis_rename src dst).
Proof.
  intros H w. unfold redis_rename.
  destruct (key_exists src w); now apply emits_log.
Qed.

Lemma emits_redis_sdiff k other :
  P (Redis_sdiff k other) -> respects (emits P) (redis_sdiff k other).
Proof. intros H w. now apply emits_log. Qed.

Lemma emits_redis_smembers k :
  P (Redis_smembers k) -> respects (emits P) (redis_smembers k).
Proof. intros H w. now apply emits_log. Qed.

End EmitsPrimitives.

(** One step through a computation: a bind, a branch, a loop or a call to
    a collaborator; what stays is the condition on the event logged. *)
Ltac emits_step :=
  match goal with
  | |- respects _ (bind _ _) =>
      refine (@respects_bind _ _ _ _ _ _ _ _); [|intros ?]
  | |- respects _ (ret _) => refine (@respects_ret _ _ _ _)
  | |- respects _ (raise _) => refine (@respects_raise _ _ _ _)
  | |- respects _ (for_each _ _) =>
      refine (@respects_for_each _ _ _ _ _ _); intros ?
  | |- respects _ (if ?b then _ else _) => destruct b
  | |- respects _ (match ?x with _ => _ end) => destruct x
  | |- respects _ (statsd_incr _) => apply emits_statsd_incr
  | |- respects _ datetime_now => apply emits_read_clock
  | |- respects _ time_time => apply emits_read_clock
  | |- respects _ random_random => apply emits_random_random
  | |- respects _ (db_query _) => apply emits_db_query
  | |- respects _ (redis_rpush _ _) => apply emits_redis_rpush
  | |- respects _ (redis_get _) => apply emits_redis_get
  | |- respects _ (redis_set _ _) => apply emits_redis_set
  | |- respects _ (redis_mset _ _) => apply emits_redis_mset
  | |- respects _ (redis_delete _) => apply emits_redis_delete
  | |- respects _ (redis_sismember _ _) => apply emits_redis_sismember
  | |- respects _ (redis_sadd _ _) => apply emits_redis_sadd
  | |- respects _ (redis_exists _) => apply emits_redis_exists
  | |- respects _ (redis_rename _ _) => apply emits_redis_rename
  | |- respects _ (redis_sdiff _ _) => apply emits_redis_sdiff
  | |- respects _ (redis_smembers _) => apply emits_redis_smembers
  end.

(** ** Redis keys *)

Section Keys.

Import MacDbUpdate.

Lemma append_assoc (a b c : string) : (a +:+ b) +:+ c = a +:+ (b +:+ c).
Proof.
  induction a as [|x a IH]; [reflexivity|].
  change (String x ((a +:+ b) +:+ c) = String x (a +:+ (b +:+ c))).
  now f_equal.
Qed.

Lemma length_append (a b : string) :
  String.length (a +:+ b) = String.length a + String.length b.
Proof.
  induction a as [|x a IH]; [reflexivity|].
  change (S (String.length (a +:+ b)) = S (String.length a + String.length b)).
  now f_equal.
Qed.

Lemma append_last_char (a b : string) (x y : ascii) :
  a +:+ String x "" = b +:+ String y "" -> x = y.
Proof.
  revert b. induction a as [|c a IH]; intros [|d b] H; simpl in H.
  - now injection H.
  - injection H as _ H. destruct b; discriminate H.
  - injection H as _ H. destruct a; discriminate H.
  - injection H as _ H. now apply (IH b).
Qed.

Lemma connected_key_ne_tmp_key host : connected_key host <> tmp_key host.
Proof.
  unfold tmp_key. intros H. apply (f_equal String.length) in H.
  rewrite length_append in H. simpl in H. lia.
Qed.

Lemma scalar_key_ne_connected_key host ip mac suffix host' :
  update_prefix host ip mac +:+ suffix <> connected_key host'.
Proof. unfold update_prefix, connected_key. simpl. discriminate. Qed.

Lemma scalar_key_ne_tmp_key host ip mac suffix host' :
  update_prefix host ip mac +:+ suffix <> tmp_key host'.
Proof. unfold update_prefix, tmp_key, connected_key. simpl. discriminate. Qed.

Lemma last_update_ne_known_connected host ip mac host' ip' mac' :
  last_update_key host ip mac <> known_connected_key host' ip' mac'.
Proof.
  unfold last_update_key, known_connected_key. intros H.
  change "last_update" with ("last_updat" +:+ "e") in H.
  change "known_connected" with ("known_connecte" +:+ "d") in H.
  rewrite <- !append_assoc in H. apply append_last_char in H.
  discriminate H.
Qed.

End Keys.

(** ** The debounced refresh *)

Section Debounce.

Import MacDbUpdate.

Lemma update_session_run host ip mac w :
  let last := default 0%float (scalars w !! last_update_key host ip mac) in
  update_session host ip mac w
  = (Ok tt,
     if PrimFloat.ltb (rng w (rolls w)) 0.18
     then refreshed host ip mac 1 1 w
     else if PrimFloat.ltb (120 + rng w (S (rolls w)) * 20)
                           (clock w (S (ticks w)) - last)
          then refreshed host ip mac 2 2 w
          else postponed host ip mac w).
Proof.
  destruct w as [db ss sc qs tr clk tk rg rl]. cbv zeta. run.
  destruct (PrimFloat.ltb (rg rl) 0.18).
  - run. rewrite !Nat.add_1_r. same_world.
  - destruct (PrimFloat.ltb _ _); run.
    + replace (tk + 2) with (S (S tk)) by lia.
      replace (rl + 2) with (S (S rl)) by lia.
      same_world.
    + same_world.
Qed.

Lemma close_key_emits (P : event -> Prop) host ip_mac :
  (forall e, close_event e -> P e) ->
  respects (emits P) (close_key host ip_mac).
Proof.
  intros HP. unfold close_key.
  destruct (PyStr.split "_" ip_mac) as [|ip [|mac [|]]];
    try unfold close_session;
    repeat (cbv beta zeta; emits_step); apply HP; cbn [close_event]; auto.
Qed.

(** No call of the engine reads a key "...known_connected". *)
Lemma deferred_value_never_read c host ip mac :
  respects (emits (fun e => reads (known_connected_key host ip mac) e = false))
           (run_call c).
Proof.
  assert (forall k, k <> known_connected_key host ip mac ->
                    String.eqb k (known_connected_key host ip mac) = false)
    as Hne by (intros k; apply String.eqb_neq).
  assert (forall h, connected_key h <> known_connected_key host ip mac)
    as Hc by (intros h E; symmetry in E;
              now apply scalar_key_ne_connected_key in E).
  assert (forall h, connected_key h +:+ "-tmp"
                    <> known_connected_key host ip mac)
    as Ht by (intros h E; symmetry in E;
              now apply scalar_key_ne_tmp_key in E).
  destruct c as [h i m s e|h i m e|h i m|h d|h]; cbn [run_call].
  - unfold open_session.
    repeat (cbv beta zeta; emits_step); reflexivity.
  - unfold close_session.
    repeat (cbv beta zeta; emits_step); reflexivity.
  - unfold update_session.
    repeat (cbv beta zeta; emits_step); try reflexivity.
    cbn [reads]. apply Hne, last_update_ne_known_connected.
  - unfold update, open_session, update_session.
    repeat (cbv beta zeta; emits_step); try reflexivity; cbn [reads];
      try (now apply Hne); apply Hne, last_update_ne_known_connected.
  - unfold finish.
    repeat (cbv beta zeta; emits_step); try reflexivity; cbn [reads];
      rewrite ?orb_false_iff; repeat split; try (now apply Hne).
    all: apply close_key_emits; intros [] He; try reflexivity; destruct He.
Qed.

(** The threshold the program compares with: the binary64 number within
    half a unit in the last place, 2^-56, of 0.18. *)
Lemma threshold_is_nearest :
  exists q, exact 0.18 = Some q
            /\ (0.18 - / 2 ^ 56 <= q)%Q /\ (q <= 0.18 + / 2 ^ 56)%Q.
Proof.
  eexists. split; [vm_compute; reflexivity|].
  split; vm_compute; discriminate.
Qed.

(** C5, counterexample: with nothing stored as last update, a clock that
    reads 140 and the random values 0.5 and 1 - 2^-53, the numbers
    themselves pass the test of the policy, 140 - 0 being more than
    120 + 20 (1 - 2^-53); but in binary64 the sum is rounded to 140, the
    test fails and [update_session] postpones: no UPDATE is sent. *)
Lemma refresh_lost_to_rounding :
  let w := mkWorld [] ∅ ∅ ∅ [] (fun _ => 140%float) 0
                   (fun n => match n with
                             | 0 => 0.5%float
                             | S _ => PrimFloat.next_down 1
                             end) 0 in
  let w' := snd (update_session "fw1" "10.0.0.5" "aa" w) in
  scalars w !! last_update_key "fw1" "10.0.0.5" "aa" = None
  /\ stands_for (rng w 0) 0.5
  /\ stands_for (clock w 1) 140
  /\ stands_for (rng w 1) (1 - / 2 ^ 53)
  /\ refresh_due_exact 0.5 140 0 (1 - / 2 ^ 53)
  /\ ~ refresh_due (rng w 0) (clock w 1) 0 (rng w 1)
  /\ new_events w w'
     = [Redis_get (last_update_key "fw1" "10.0.0.5" "aa");
        Statsd_incr "mac.update.session.postpone_update";
        Redis_mset (known_connected_key "fw1" "10.0.0.5" "aa") 140%float]
  /\ macdb w' = macdb w.
Proof.
  cbv zeta. split; [reflexivity|]. split; [vm_compute; reflexivity|].
  split; [vm_compute; reflexivity|]. split; [vm_compute; reflexivity|].
  split; [right; vm_compute; reflexivity|].
  split; [intros [H|H]; vm_compute in H; discriminate H|].
  split; vm_compute; reflexivity.
Qed.

(** C5, amended: [update_session] refreshes exactly when the first random
    value is below 0.18 or the time since the stored last update (0 if
    none) is more than 120 plus 20 times the second random value, the
    product, the sum, the difference and the two comparisons being those
    of binary64 arithmetic.  A refresh
    writes the clock reading taken at the call as [known_connected] of
    every row of the session, open or closed, deletes the deferred value
    and stores the latest clock reading as last update; otherwise the
    reading taken at the call is stored as deferred value and the last
    update stays.  No call of the engine reads a deferred value. *)
Theorem debounced_refresh host ip mac w :
  let now := clock w (ticks w) in
  let last_key := last_update_key host ip mac in
  let deferred_key := known_connected_key host ip mac in
  let last := default 0%float (scalars w !! last_key) in
  let r := rng w (rolls w) in
  let t := clock w (S (ticks w)) in
  let j := rng w (S (rolls w)) in
  let w' := snd (update_session host ip mac w) in
  fst (update_session host ip mac w) = Ok tt
  /\ (In (Db_query (UpdateKnown now ip mac host)) (new_events w w')
      <-> refresh_due r t last j)
  /\ (refresh_due r t last j ->
      macdb w'
      = map (fun row => if session_of ip mac host row
                        then set_known_connected now row else row) (macdb w)
      /\ scalars w'
         = <[last_key := clock w (pred (ticks w'))]>
             (delete deferred_key (scalars w))
      /\ scalars w' !! deferred_key = None
      /\ ticks w < ticks w'
      /\ new_events w w'
         = [Redis_get last_key;
            Statsd_incr "mac.update.session.update";
            Db_query (UpdateKnown now ip mac host);
            Redis_delete deferred_key;
            Redis_set last_key (clock w (pred (ticks w')))])
  /\ (~ refresh_due r t last j ->
      macdb w' = macdb w
      /\ scalars w' = <[deferred_key := now]> (scalars w)
      /\ scalars w' !! last_key = scalars w !! last_key
      /\ new_events w w'
         = [Redis_get last_key;
            Statsd_incr "mac.update.session.postpone_update";
            Redis_mset deferred_key now])
  /\ (forall c w0 host' ip' mac',
        Forall (fun e => reads (known_connected_key host' ip' mac') e = false)
               (new_events w0 (snd (run_call c w0)))).
Proof.
  cbv zeta. rewrite update_session_run. cbv zeta.
  set (last := default 0%float (scalars w !! last_update_key host ip mac)).
  set (r := rng w (rolls w)). set (t := clock w (S (ticks w))).
  set (j := rng w (S (rolls w))).
  assert (Hkeys : last_update_key host ip mac
                  <> known_connected_key host ip mac)
    by apply last_update_ne_known_connected.
  assert (Hrefreshed : forall n k,
    let w' := refreshed host ip mac n k w in
    In (Db_query (UpdateKnown (clock w (ticks w)) ip mac host))
       (new_events w w')
    /\ macdb w'
       = map (fun row => if session_of ip mac host row
                         then set_known_connected (clock w (ticks w)) row
                         else row) (macdb w)
    /\ scalars w'
       = <[last_update_key host ip mac := clock w (pred (ticks w'))]>
           (delete (known_connected_key host ip mac) (scalars w))
    /\ scalars w' !! known_connected_key host ip mac = None
    /\ ticks w < ticks w'
    /\ new_events w w'
       = [Redis_get (last_update_key host ip mac);
          Statsd_incr "mac.update.session.update";
          Db_query (UpdateKnown (clock w (ticks w)) ip mac host);
          Redis_delete (known_connected_key host ip mac);
          Redis_set (last_update_key host ip mac)
                    (clock w (pred (ticks w')))]).
  { intros n k. cbv zeta. unfold new_events, refreshed; simpl.
    rewrite drop_app_length. repeat split.
    - simpl. tauto.
    - rewrite lookup_insert_ne by exact Hkeys. apply lookup_delete_eq.
    - lia. }
  assert (Hpostponed :
    let w' := postponed host ip mac w in
    ~ In (Db_query (UpdateKnown (clock w (ticks w)) ip mac host))
         (new_events w w')
    /\ macdb w' = macdb w
    /\ scalars w'
       = <[known_connected_key host ip mac := clock w (ticks w)]> (scalars w)
    /\ scalars w' !! last_update_key host ip mac
       = scalars w !! last_update_key host ip mac
    /\ new_events w w'
       = [Redis_get (last_update_key host ip mac);
          Statsd_incr "mac.update.session.postpone_update";
          Redis_mset (known_connected_key host ip mac) (clock w (ticks w))]).
  { cbv zeta. unfold new_events, postponed; simpl.
    rewrite drop_app_length. repeat split.
    - simpl. intros [H|[H|[H|[]]]]; discriminate H.
    - apply lookup_insert_ne. congruence. }
  split; [reflexivity|].
  assert (Hlast : forall c w0 host' ip' mac',
    Forall (fun e => reads (known_connected_key host' ip' mac') e = false)
           (new_events w0 (snd (run_call c w0)))).
  { intros c w0 host' ip' mac'.
    apply emits_new_events, deferred_value_never_read. }
  unfold refresh_due. simpl snd.
  destruct (PrimFloat.ltb r 0.18) eqn:Hr.
  - destruct (Hrefreshed 1 1) as (Hin & Hrest).
    split; [tauto|]. split; [intros _; exact Hrest|].
    split; [tauto|exact Hlast].
  - destruct (PrimFloat.ltb (120 + j * 20) (t - last)) eqn:Hj.
    + destruct (Hrefreshed 2 2) as (Hin & Hrest).
      split; [tauto|]. split; [intros _; exact Hrest|].
      split; [tauto|exact Hlast].
    + destruct Hpostponed as (Hnin & Hrest).
      assert (Hnot : ~ (false = true \/ false = true))
        by (intros [H|H]; discriminate H).
      split; [tauto|]. split; [tauto|].
      split; [intros _; exact Hrest|exact Hlast].
Qed.

End Debounce.

(** ** Stepping through a computation *)

Lemma bind_ok {A B} (m : M A) (k : A -> M B) w a w' :
  m w = (Ok a, w') -> bind m k w = k a w'.
Proof. intros H. unfold bind. now rewrite H. Qed.

Lemma bind_raise {A B} (m : M A) (k : A -> M B) w e w' :
  m w = (Raise e, w') -> bind m k w = (Raise e, w').
Proof. intros H. unfold bind. now rewrite H. Qed.

Lemma session_closes_block now now' ip mac host host' rest :
  session_closes (Statsd_incr "mac.update.session.close"
                  :: Db_query (UpdateEndByIp now ip host)
                  :: Db_query (UpdateEndByMac now' mac host') :: rest)
  = (ip, mac) :: session_closes rest.
Proof. reflexivity. Qed.

(** ** End-of-cycle reconciliation *)

Section Reconciliation.

Import MacDbUpdate.

Lemma close_session_total host ip mac end_time w :
  close_session host ip mac end_time w
  = (Ok tt, snd (close_session host ip mac end_time w)).
Proof. now rewrite close_session_run. Qed.

Lemma close_session_redis host ip mac end_time w :
  redis_of (snd (close_session host ip mac end_time w)) = redis_of w.
Proof. now rewrite close_session_run. Qed.

Lemma close_session_trace host ip mac end_time w :
  trace (snd (close_session host ip mac end_time w))
  = (trace w ++ [Statsd_incr "mac.update.session.close";
                 Db_query (UpdateEndByIp (clock w (ticks w)) ip host);
                 Db_query (UpdateEndByMac (clock w (ticks w)) mac host)])%list.
Proof. now rewrite close_session_run. Qed.

Lemma close_sessions_cons host ip mac pairs w :
  close_sessions host ((ip, mac) :: pairs) w
  = close_sessions host pairs (snd (close_session host ip mac None w)).
Proof.
  unfold close_sessions. cbn [for_each].
  now erewrite bind_ok by apply close_session_total.
Qed.

Lemma close_sessions_total host pairs : forall w,
  close_sessions host pairs w = (Ok tt, snd (close_sessions host pairs w)).
Proof.
  induction pairs as [|[ip mac] pairs IH]; intros w; [reflexivity|].
  rewrite close_sessions_cons. apply IH.
Qed.

Lemma close_sessions_redis host pairs : forall w,
  redis_of (snd (close_sessions host pairs w)) = redis_of w.
Proof.
  induction pairs as [|[ip mac] pairs IH]; intros w; [reflexivity|].
  rewrite close_sessions_cons, IH. apply close_session_redis.
Qed.

Lemma close_sessions_trace host pairs : forall w,
  exists d,
    trace (snd (close_sessions host pairs w)) = (trace w ++ d)%list
    /\ forall rest,
         session_closes (d ++ rest) = (pairs ++ session_closes rest)%list.
Proof.
  induction pairs as [|[ip mac] pairs IH]; intros w.
  - exists []. split; [symmetry; apply app_nil_r|reflexivity].
  - rewrite close_sessions_cons.
    destruct (IH (snd (close_session host ip mac None w))) as (d & Hd & Hs).
    eexists. split.
    + rewrite Hd, close_session_trace, <- app_assoc. reflexivity.
    + intros rest. cbn [app]. rewrite session_closes_block, Hs.
      reflexivity.
Qed.

Lemma close_keys_run host keys : forall w,
  Forall well_formed_key keys ->
  for_each keys (close_key host) w
  = close_sessions host (map key_parts keys) w.
Proof.
  unfold close_sessions.
  induction keys as [|k keys IH]; intros w Hwf; [reflexivity|].
  inversion Hwf as [|? ? (ip & mac & Hk) Hrest]; subst.
  cbn [for_each map]. unfold bind.
  replace (close_key host k w) with
    (close_session host (fst (key_parts k)) (snd (key_parts k)) None w)
    by (unfold close_key, key_parts; now rewrite Hk).
  destruct (close_session _ _ _ _ w) as [[[]|e] w1]; [|reflexivity].
  now apply IH.
Qed.

Lemma close_sessions_macdb host pairs : forall w,
  macdb (snd (close_sessions host pairs w))
  = close_all (clock w) (ticks w) host pairs (macdb w).
Proof.
  induction pairs as [|[ip mac] pairs IH]; intros w; [reflexivity|].
  rewrite close_sessions_cons, IH, close_session_run. reflexivity.
Qed.

Lemma key_exists_redis k w w' :
  redis_of w' = redis_of w -> key_exists k w' = key_exists k w.
Proof.
  unfold redis_of, key_exists. intros H. injection H as -> -> ->.
  reflexivity.
Qed.

Lemma finish_eq host w :
  let cdb := connected_key host in
  let tmp := tmp_key host in
  let w1 := log (Redis_exists tmp) (log (Redis_exists cdb) w) in
  finish host w
  = if key_exists cdb w
    then if key_exists tmp w
         then (for_each (elements (members cdb w ∖ members tmp w))
                        (close_key host) ;;;
               redis_rename tmp cdb) (log (Redis_sdiff cdb tmp) w1)
         else (for_each (elements (members cdb w)) (close_key host) ;;;
               redis_delete cdb) (log (Redis_smembers cdb) w1)
    else if key_exists tmp w then redis_rename tmp cdb w1 else (Ok tt, w1).
Proof.
  cbv zeta. unfold finish.
  erewrite bind_ok by reflexivity. cbv beta.
  destruct (key_exists (connected_key host) w); cbv beta iota delta [negb];
    erewrite bind_ok by reflexivity; cbv beta;
    change (key_exists (connected_key host +:+ "-tmp")
              (log (Redis_exists (connected_key host)) w))
      with (key_exists (tmp_key host) w);
    destruct (key_exists (tmp_key host) w); try reflexivity;
    now erewrite bind_ok by reflexivity.
Qed.

Lemma reconcile_loop host keys (tail : M unit) w :
  Forall well_formed_key keys ->
  (for_each keys (close_key host) ;;; tail) w
  = tail (snd (close_sessions host (map key_parts keys) w)).
Proof.
  intros Hwf. erewrite bind_ok; [reflexivity|].
  rewrite close_keys_run by exact Hwf. apply close_sessions_total.
Qed.

Lemma redis_rename_run src dst w :
  key_exists src w = true ->
  fst (redis_rename src dst w) = Ok tt
  /\ macdb (snd (redis_rename src dst w)) = macdb w
  /\ sets (snd (redis_rename src dst w)) = rename_in src dst (sets w)
  /\ trace (snd (redis_rename src dst w))
     = (trace w ++ [Redis_rename src dst])%list.
Proof. intros H. unfold redis_rename. rewrite H. now repeat split. Qed.

Lemma rename_in_lookup {V} src dst (m : gmap string V) :
  src <> dst ->
  rename_in src dst m !! dst = m !! src /\ rename_in src dst m !! src = None.
Proof.
  intros Hne. unfold rename_in. destruct (m !! src) as [v|] eqn:Hsrc.
  - rewrite lookup_insert_eq, lookup_insert_ne, lookup_delete_eq by congruence.
    now split.
  - rewrite lookup_delete_eq, lookup_delete_ne by congruence. now split.
Qed.

Lemma new_events_app w w' d :
  trace w' = (trace w ++ d)%list -> new_events w w' = d.
Proof. intros H. unfold new_events. rewrite H. apply drop_app_length. Qed.

(** What [finish] does once the keys to close are well formed: the
    world after the loop, then [tail]. *)
Lemma loop_world host keys w0 :
  let w1 := snd (close_sessions host (map key_parts keys) w0) in
  redis_of w1 = redis_of w0
  /\ macdb w1 = close_all (clock w0) (ticks w0) host (map key_parts keys)
                          (macdb w0)
  /\ exists d, trace w1 = (trace w0 ++ d)%list
               /\ forall rest, session_closes (d ++ rest)
                               = (map key_parts keys ++ session_closes rest)%list.
Proof.
  cbv zeta. split; [apply close_sessions_redis|].
  split; [apply close_sessions_macdb|apply close_sessions_trace].
Qed.

(** C1: [finish] does not close a pair whose key has a second
    underscore.  After a cycle that reported the pair (10.0.0.5, aa_bb)
    and the loop of a cycle that reports (10.0.0.6, cc), both sets exist
    and the key "10.0.0.5_aa_bb" is in ACTIVE and not in PENDING; [finish]
    raises ValueError at the unpacking of the three pieces: no session is
    closed and PENDING is not renamed. *)
Lemma finish_raises_on_underscore :
  let w1 := snd (cycle "fw1" [mkEntry "?" "10.0.0.5" "aa_bb" "eth0"]
                       sample_world) in
  let w := snd (Wsgi.feed "fw1" [mkEntry "?" "10.0.0.6" "cc" "eth0"] w1) in
  let w' := snd (finish "fw1" w) in
  key_exists (connected_key "fw1") w = true
  /\ key_exists (tmp_key "fw1") w = true
  /\ elements (members (connected_key "fw1") w ∖ members (tmp_key "fw1") w)
     = ["10.0.0.5_aa_bb"]
  /\ fst (finish "fw1" w) = Raise ValueError
  /\ session_closes (new_events w w') = []
  /\ elements (members (connected_key "fw1") w') = ["10.0.0.5_aa_bb"]
  /\ elements (members (tmp_key "fw1") w') = ["10.0.0.6_cc"].
Proof. vm_compute. repeat split. Qed.


End Reconciliation.

(** ** Entry classification *)

Section Classification.

Import MacDbUpdate.

Lemma open_session_total host ip mac start_time end_time w :
  open_session host ip mac start_time end_time w
  = (Ok tt, snd (open_session host ip mac start_time end_time w)).
Proof. now rewrite open_session_run. Qed.

Lemma update_session_total host ip mac w :
  update_session host ip mac w
  = (Ok tt, snd (update_session host ip mac w)).
Proof. now rewrite update_session_run. Qed.

Lemma update_eq host d w :
  let key := presence_key (e_ip d) (e_mac d) in
  let w0 := log (Redis_sismember (connected_key host) key)
                (log (Statsd_incr "mac.update.update") w) in
  update host d w
  = redis_sadd (tmp_key host) key
      (if bool_decide (key ∈ members (connected_key host) w)
       then snd (update_session host (e_ip d) (e_mac d) w0)
       else snd (open_session host (e_ip d) (e_mac d) (clock w (ticks w)) None
                              (snd (datetime_now w0)))).
Proof.
  cbv zeta. unfold update.
  erewrite bind_ok by reflexivity.
  erewrite bind_ok by reflexivity.
  change (members (connected_key host) (log (Statsd_incr "mac.update.update") w))
    with (members (connected_key host) w).
  destruct (bool_decide _); cbv beta iota delta [negb].
  - erewrite bind_ok by apply update_session_total. reflexivity.
  - erewrite bind_ok; [|erewrite bind_ok by reflexivity; apply open_session_total].
    reflexivity.
Qed.

Lemma inserted_rows_app t t' :
  inserted_rows (t ++ t') = (inserted_rows t ++ inserted_rows t')%list.
Proof.
  induction t as [|e t IH]; [reflexivity|].
  destruct e as [|[]| | | | | | | | | | | | |]; cbn [app inserted_rows];
    now rewrite IH.
Qed.

Lemma inserted_rows_none d : Forall no_insert d -> inserted_rows d = [].
Proof.
  induction 1 as [|e d He _ IH]; [reflexivity|].
  change (e :: d) with ([e] ++ d)%list.
  rewrite inserted_rows_app, IH, app_nil_r. exact He.
Qed.

Lemma update_session_no_insert host ip mac :
  respects (emits no_insert) (update_session host ip mac).
Proof.
  unfold update_session.
  repeat (cbv beta zeta; emits_step); reflexivity.
Qed.

Lemma update_session_sets host ip mac w k :
  k <> known_connected_key host ip mac ->
  sets (snd (update_session host ip mac w)) !! k = sets w !! k.
Proof.
  intros Hk. rewrite update_session_run. cbv zeta. cbn [snd].
  repeat match goal with |- context [if ?b then _ else _] => destruct b end;
    unfold refreshed, postponed; cbn [sets];
    rewrite ?lookup_delete_ne by congruence; reflexivity.
Qed.

Lemma update_session_length host ip mac w :
  length (macdb (snd (update_session host ip mac w))) = length (macdb w).
Proof.
  rewrite update_session_run. cbv zeta. cbn [snd].
  repeat match goal with |- context [if ?b then _ else _] => destruct b end;
    unfold refreshed, postponed, update_where; cbn [macdb];
    rewrite ?length_map; reflexivity.
Qed.

Lemma update_total host d w :
  update host d w = (Ok tt, snd (update host d w)).
Proof. now rewrite update_eq. Qed.

(** What [update] leaves in the two sets of its host. *)
Lemma update_sets host d w :
  let key := presence_key (e_ip d) (e_mac d) in
  let w' := snd (update host d w) in
  sets w' !! tmp_key host = Some ({[key]} ∪ members (tmp_key host) w)
  /\ sets w' !! connected_key host = sets w !! connected_key host.
Proof.
  cbv zeta. rewrite update_eq. cbv zeta.
  set (w0 := log _ (log _ w)).
  set (w1 := if bool_decide _ then _ else _).
  assert (Hsets : forall k, k = tmp_key host \/ k = connected_key host ->
                            sets w1 !! k = sets w !! k).
  { intros k Hk. unfold w1. destruct (bool_decide _).
    - rewrite update_session_sets; [reflexivity|].
      destruct Hk as [-> | ->]; intros E; symmetry in E.
      + now apply scalar_key_ne_tmp_key in E.
      + now apply scalar_key_ne_connected_key in E.
    - rewrite open_session_run. reflexivity. }
  change (sets (snd (redis_sadd (tmp_key host)
                       (presence_key (e_ip d) (e_mac d)) w1)))
    with (<[tmp_key host := {[presence_key (e_ip d) (e_mac d)]}
                            ∪ members (tmp_key host) w1]> (sets w1)).
  split.
  - rewrite lookup_insert_eq. unfold members.
    rewrite Hsets by now left. reflexivity.
  - rewrite lookup_insert_ne
      by (intros E; symmetry in E; now apply connected_key_ne_tmp_key in E).
    apply Hsets. now right.
Qed.

(** The events [update] adds: its counter and the membership test, the
    events of the branch taken, the SADD. *)
Lemma update_trace host d w :
  let key := presence_key (e_ip d) (e_mac d) in
  let w0 := log (Redis_sismember (connected_key host) key)
                (log (Statsd_incr "mac.update.update") w) in
  forall branch,
    trace (if bool_decide (key ∈ members (connected_key host) w)
           then snd (update_session host (e_ip d) (e_mac d) w0)
           else snd (open_session host (e_ip d) (e_mac d) (clock w (ticks w))
                                  None (snd (datetime_now w0))))
    = (trace w0 ++ branch)%list ->
    new_events w (snd (update host d w))
    = ([Statsd_incr "mac.update.update";
        Redis_sismember (connected_key host) key] ++ branch
       ++ [Redis_sadd (tmp_key host) key])%list.
Proof.
  cbv zeta. intros branch Hbranch. apply new_events_app.
  rewrite update_eq. cbv zeta.
  set (w1 := if bool_decide _ then _ else _) in *.
  change (trace (snd (redis_sadd (tmp_key host)
                        (presence_key (e_ip d) (e_mac d)) w1)))
    with (trace w1 ++ [Redis_sadd (tmp_key host)
                         (presence_key (e_ip d) (e_mac d))])%list.
  rewrite Hbranch. cbn [trace log]. now rewrite <- !app_assoc.
Qed.

#[local] Instance same_redis_preorder : PreOrder same_redis.
Proof.
  split; [intros w; reflexivity|].
  intros w1 w2 w3 H12 H23. unfold same_redis in *. congruence.
Qed.

Lemma close_keys_same_redis host keys :
  respects same_redis (for_each keys (close_key host)).
Proof.
  refine (@respects_for_each _ _ _ _ _ _). intros k. unfold close_key.
  destruct (PyStr.split "_" k) as [|ip [|mac [|]]];
    match goal with
    | |- respects _ (raise _) => refine (@respects_raise _ _ _ _)
    | |- _ => intros w; apply close_session_redis
    end.
Qed.

Lemma feed_cons host d es w :
  Wsgi.feed host (d :: es) w
  = Wsgi.feed host es
      (if String.eqb (e_mac d) "(incomplete)" then w
       else snd (update host d w)).
Proof.
  unfold Wsgi.feed. cbn [for_each].
  destruct (String.eqb (e_mac d) "(incomplete)").
  - now erewrite bind_ok by reflexivity.
  - now erewrite bind_ok by apply update_total.
Qed.

Lemma feed_total host es : forall w,
  Wsgi.feed host es w = (Ok tt, snd (Wsgi.feed host es w)).
Proof.
  induction es as [|d es IH]; intros w; [reflexivity|].
  rewrite feed_cons. apply IH.
Qed.

Lemma feed_connected host es : forall w,
  sets (snd (Wsgi.feed host es w)) !! connected_key host
  = sets w !! connected_key host.
Proof.
  induction es as [|d es IH]; intros w; [reflexivity|].
  rewrite feed_cons, IH. destruct (String.eqb _ _); [reflexivity|].
  apply update_sets.
Qed.





Lemma refresh_inserts_nothing host d w :
  presence_key (e_ip d) (e_mac d) ∈ members (connected_key host) w ->
  snd (update host d w)
  = snd (redis_sadd (tmp_key host) (presence_key (e_ip d) (e_mac d))
           (snd (update_session host (e_ip d) (e_mac d)
                   (log (Redis_sismember (connected_key host)
                                         (presence_key (e_ip d) (e_mac d)))
                        (log (Statsd_incr "mac.update.update") w)))))
  /\ inserted_rows (new_events w (snd (update host d w))) = []
  /\ length (macdb (snd (update host d w))) = length (macdb w).
Proof.
  intros Hin.
  pose proof (update_trace host d w) as Htrace.
  pose proof (update_eq host d w) as Heq. cbv zeta in Htrace, Heq.
  rewrite bool_decide_eq_true_2 in Htrace, Heq by exact Hin.
  split; [now rewrite Heq|]. split.
  - destruct (update_session_no_insert host (e_ip d) (e_mac d)
                (log (Redis_sismember (connected_key host)
                                      (presence_key (e_ip d) (e_mac d)))
                     (log (Statsd_incr "mac.update.update") w)))
      as (branch & Hbranch & Hnone).
    rewrite (Htrace branch Hbranch), !inserted_rows_app.
    now rewrite (inserted_rows_none branch Hnone).
  - rewrite Heq.
    change (macdb (snd (redis_sadd ?k ?m ?x))) with (macdb x).
    now rewrite update_session_length.
Qed.


(** C2: a pair reported in two consecutive cycles is inserted twice when
    the [finish] of the first of them raises.  The host fw1 reports
    (10.0.0.5, aa_bb), then (10.0.0.6, cc), then (10.0.0.6, cc) again: the
    second cycle inserts a row for (10.0.0.6, cc) and its [finish] raises
    ValueError at the key "10.0.0.5_aa_bb", so PENDING is not renamed; the
    third cycle does not find the pair in ACTIVE and inserts a second
    row for it. *)
Lemma second_insert_after_failed_finish :
  let a := mkEntry "?" "10.0.0.5" "aa_bb" "eth0" in
  let b := mkEntry "?" "10.0.0.6" "cc" "eth0" in
  let w1 := snd (cycle "fw1" [a] sample_world) in
  let w2 := snd (cycle "fw1" [b] w1) in
  let w3 := snd (cycle "fw1" [b] w2) in
  fst (cycle "fw1" [a] sample_world) = Ok tt
  /\ fst (cycle "fw1" [b] w1) = Raise ValueError
  /\ map r_ip (inserted_rows (new_events w1 w2)) = ["10.0.0.6"]
  /\ map r_mac (inserted_rows (new_events w1 w2)) = ["cc"]
  /\ elements (members (connected_key "fw1") w2) = ["10.0.0.5_aa_bb"]
  /\ map r_ip (inserted_rows (new_events w2 w3)) = ["10.0.0.6"]
  /\ map r_mac (inserted_rows (new_events w2 w3)) = ["cc"]
  /\ length (List.filter (session_of "10.0.0.6" "cc" "fw1") (macdb w3)) = 2.
Proof. vm_compute. repeat split. Qed.

End Classification.

(** ** The invariant of the table *)

Section Invariant.

Import MacDbUpdate.

#[local] Instance keeps_invariant_preorder : PreOrder keeps_invariant.
Proof.
  split.
  - intros w H. exact H.
  - intros w1 w2 w3 H12 H23 H. apply H23, H12, H.
Qed.

Lemma filter_update_where q p f db :
  (forall r, q (f r) = true -> q r = true) ->
  length (List.filter q (update_where p f db)) <= length (List.filter q db).
Proof.
  intros Hf. induction db as [|r db IH]; [reflexivity|].
  change (update_where p f (r :: db))
    with ((if p r then f r else r) :: update_where p f db).
  cbn [List.filter]. destruct (p r).
  - destruct (q (f r)) eqn:Hq.
    + rewrite (Hf r Hq). cbn [length]. lia.
    + destruct (q r); cbn [length]; lia.
  - destruct (q r); cbn [length]; lia.
Qed.

Lemma open_with_ip_closed ip host t r :
  open_with_ip ip host (set_end_time t r) = false.
Proof. apply andb_false_r. Qed.

Lemma open_with_mac_closed mac host t r :
  open_with_mac mac host (set_end_time t r) = false.
Proof. apply andb_false_r. Qed.

Lemma update_where_keeps p f db :
  (forall ip host r, open_with_ip ip host (f r) = true ->
                     open_with_ip ip host r = true) ->
  (forall mac host r, open_with_mac mac host (f r) = true ->
                      open_with_mac mac host r = true) ->
  at_most_one_open db -> at_most_one_open (update_where p f db).
Proof.
  intros Hip Hmac Hdb host addr. destruct (Hdb host addr) as [H1 H2]. split.
  - etransitivity; [apply filter_update_where, Hip|exact H1].
  - etransitivity; [apply filter_update_where, Hmac|exact H2].
Qed.

Lemma set_end_time_keeps p t db :
  at_most_one_open db -> at_most_one_open (update_where p (set_end_time t) db).
Proof.
  apply update_where_keeps; intros a host r H.
  - now rewrite open_with_ip_closed in H.
  - now rewrite open_with_mac_closed in H.
Qed.

Lemma set_known_connected_keeps p t db :
  at_most_one_open db ->
  at_most_one_open (update_where p (set_known_connected t) db).
Proof. apply update_where_keeps; intros a host r H; exact H. Qed.

Lemma close_matching_none q now ip mac host db :
  (forall r, q r = true ->
             open_with_ip ip host r || open_with_mac mac host r = true) ->
  (forall r, q (set_end_time now r) = false) ->
  List.filter q (close_matching now ip mac host db) = [].
Proof.
  intros Hq Hclosed. induction db as [|r db IH]; [reflexivity|].
  change (close_matching now ip mac host (r :: db))
    with ((if open_with_ip ip host r || open_with_mac mac host r
           then set_end_time now r else r)
          :: close_matching now ip mac host db).
  cbn [List.filter].
  destruct (open_with_ip ip host r || open_with_mac mac host r) eqn:Hr.
  - now rewrite Hclosed.
  - destruct (q r) eqn:Hqr; [|exact IH].
    apply Hq in Hqr. congruence.
Qed.

Lemma filter_snoc q (db : list Row) r :
  length (List.filter q (db ++ [r]))
  = length (List.filter q db) + (if q r then 1 else 0).
Proof.
  rewrite List.filter_app, length_app. cbn [List.filter].
  now destruct (q r).
Qed.

(** The table [open_session] leaves has the invariant if the table it
    found has: the two UPDATE statements leave no open row with the ip
    and none with the mac of the row inserted. *)
Lemma insert_after_close_keeps now ip mac host start_time end_time db :
  at_most_one_open db ->
  at_most_one_open (close_matching now ip mac host db
                    ++ [mkRow mac ip host start_time end_time now]).
Proof.
  intros Hdb host' addr.
  assert (Hclose : at_most_one_open (close_matching now ip mac host db))
    by (apply (set_end_time_keeps
                 (fun r => open_with_ip ip host r || open_with_mac mac host r)),
        Hdb).
  destruct (Hclose host' addr) as [H1 H2].
  rewrite !filter_snoc. split.
  - destruct (open_with_ip addr host' _) eqn:Hrow; [|lia].
    unfold open_with_ip in Hrow. cbn [r_ip r_server_hostname] in Hrow.
    apply andb_true_iff in Hrow as [Hrow _].
    apply andb_true_iff in Hrow as [Ha Hh].
    apply String.eqb_eq in Ha, Hh. subst addr host'.
    rewrite close_matching_none; [reflexivity| |apply open_with_ip_closed].
    intros r ->. reflexivity.
  - destruct (open_with_mac addr host' _) eqn:Hrow; [|lia].
    unfold open_with_mac in Hrow. cbn [r_mac r_server_hostname] in Hrow.
    apply andb_true_iff in Hrow as [Hrow _].
    apply andb_true_iff in Hrow as [Ha Hh].
    apply String.eqb_eq in Ha, Hh. subst addr host'.
    rewrite close_matching_none; [reflexivity| |apply open_with_mac_closed].
    intros r ->. apply orb_true_r.
Qed.

Lemma keeps_quiet {A} (m : M A) :
  (forall w, macdb (snd (m w)) = macdb w) -> respects keeps_invariant m.
Proof. intros Hm w H. now rewrite Hm. Qed.

Lemma keeps_db_query q :
  match q with
  | InsertRow _ => False
  | _ => True
  end ->
  respects keeps_invariant (db_query q).
Proof.
  intros Hq w H.
  change (macdb (snd (db_query q w))) with (execute q (macdb w)).
  destruct q; [| |destruct Hq|]; cbn [execute].
  - now apply set_end_time_keeps.
  - now apply set_end_time_keeps.
  - now apply set_known_connected_keeps.
Qed.

Lemma keeps_redis_rename src dst :
  respects keeps_invariant (redis_rename src dst).
Proof.
  apply keeps_quiet. intros w. unfold redis_rename.
  now destruct (key_exists src w).
Qed.

(** One step through a computation that has no INSERT. *)
Ltac keeps_step :=
  match goal with
  | |- respects _ (bind _ _) =>
      refine (@respects_bind _ _ _ _ _ _ _ _); [|intros ?]
  | |- respects _ (ret _) => refine (@respects_ret _ _ _ _)
  | |- respects _ (raise _) => refine (@respects_raise _ _ _ _)
  | |- respects _ (for_each _ _) =>
      refine (@respects_for_each _ _ _ _ _ _); intros ?
  | |- respects _ (if ?b then _ else _) => destruct b
  | |- respects _ (match ?x with _ => _ end) => destruct x
  | |- respects _ (db_query _) => apply keeps_db_query; exact I
  | |- respects _ (redis_rename _ _) => apply keeps_redis_rename
  | |- respects _ _ => apply keeps_quiet; intros ?; reflexivity
  end.

Lemma close_session_keeps host ip mac end_time :
  respects keeps_invariant (close_session host ip mac end_time).
Proof. unfold close_session. repeat (cbv beta zeta; keeps_step). Qed.

Lemma update_session_keeps host ip mac :
  respects keeps_invariant (update_session host ip mac).
Proof. unfold update_session. repeat (cbv beta zeta; keeps_step). Qed.

Lemma open_session_keeps host ip mac start_time end_time :
  respects keeps_invariant (open_session host ip mac start_time end_time).
Proof.
  intros w H. rewrite open_session_run. cbv zeta. cbn [snd macdb].
  now apply insert_after_close_keeps.
Qed.

Lemma update_keeps host d : respects keeps_invariant (update host d).
Proof.
  unfold update. cbv beta zeta.
  keeps_step; [keeps_step|]. keeps_step; [keeps_step|]. keeps_step.
  - destruct (negb a0).
    + keeps_step; [keeps_step|]. apply open_session_keeps.
    + apply update_session_keeps.
  - keeps_step.
Qed.

Lemma close_key_keeps host k : respects keeps_invariant (close_key host k).
Proof.
  unfold close_key.
  destruct (PyStr.split "_" k) as [|a [|b [|c l]]];
    match goal with
    | |- respects _ (raise _) => refine (@respects_raise _ _ _ _)
    | |- _ => apply close_session_keeps
    end.
Qed.

Lemma finish_keeps host : respects keeps_invariant (finish host).
Proof.
  unfold finish. cbv beta zeta.
  repeat match goal with
         | |- respects _ (close_key _ _) => apply close_key_keeps
         | |- _ => cbv beta zeta; keeps_step
         end.
Qed.

Lemma feed_keeps host macs : respects keeps_invariant (Wsgi.feed host macs).
Proof.
  unfold Wsgi.feed. refine (@respects_for_each _ _ _ _ _ _).
  intros d. destruct (String.eqb _ _); [refine (@respects_ret _ _ _ _)|].
  apply update_keeps.
Qed.

Lemma cycle_keeps host macs : respects keeps_invariant (cycle host macs).
Proof.
  unfold cycle. refine (@respects_bind _ _ _ _ _ _ _ _).
  - apply feed_keeps.
  - intros _. apply finish_keeps.
Qed.

Lemma run_call_keeps c : respects keeps_invariant (run_call c).
Proof.
  destruct c; cbn [run_call].
  - apply open_session_keeps.
  - apply close_session_keeps.
  - apply update_session_keeps.
  - apply update_keeps.
  - apply finish_keeps.
Qed.

Lemma empty_table_invariant : at_most_one_open [].
Proof. intros host addr. cbn. lia. Qed.

Lemma run_calls_keeps cs w :
  at_most_one_open (macdb w) -> at_most_one_open (macdb (run_calls cs w)).
Proof.
  revert w. induction cs as [|c cs IH]; intros w H; [exact H|].
  cbn [run_calls]. apply IH. now apply run_call_keeps.
Qed.

Lemma run_cycles_keeps cs w :
  at_most_one_open (macdb w) -> at_most_one_open (macdb (run_cycles cs w)).
Proof.
  revert w. induction cs as [|[host macs] cs IH]; intros w H; [exact H|].
  cbn [run_cycles]. apply IH. now apply cycle_keeps.
Qed.

(** C3: every operation of the engine leaves a table with at most one
    open row per (host, ip) and per (host, mac) if it found one; so does
    every statement of [open_session], whose INSERT comes after the two
    UPDATE statements.  Hence from an empty table the invariant holds
    after every call of any sequence of calls, and after every cycle of any
    sequence of cycles. *)
Theorem at_most_one_open_session :
  (forall c w, at_most_one_open (macdb w) ->
               at_most_one_open (macdb (snd (run_call c w))))
  /\ (forall host ip mac start_time end_time w,
        at_most_one_open (macdb w) ->
        let now := clock w (ticks w) in
        let db1 := execute (UpdateEndByIp now ip host) (macdb w) in
        let db2 := execute (UpdateEndByMac now mac host) db1 in
        let db3 := execute (InsertRow (mkRow mac ip host start_time end_time
                                             now)) db2 in
        macdb (snd (open_session host ip mac start_time end_time w)) = db3
        /\ at_most_one_open db1 /\ at_most_one_open db2
        /\ at_most_one_open db3)
  /\ (forall cs n w, macdb w = [] ->
                     at_most_one_open (macdb (run_calls (take n cs) w)))
  /\ (forall cycles n w, macdb w = [] ->
                         at_most_one_open (macdb (run_cycles (take n cycles) w))).
Proof.
  split; [intros c w; apply run_call_keeps|].
  split; [|split].
  - intros host ip mac start_time end_time w H. cbv zeta. cbn [execute].
    rewrite two_updates_close_matching, open_session_run.
    split; [reflexivity|].
    split; [now apply set_end_time_keeps|].
    split; [|now apply insert_after_close_keeps].
    rewrite <- two_updates_close_matching.
    now repeat apply set_end_time_keeps.
  - intros cs n w Hw. apply run_calls_keeps. rewrite Hw.
    apply empty_table_invariant.
  - intros cs n w Hw. apply run_cycles_keeps. rewrite Hw.
    apply empty_table_invariant.
Qed.

(** C3, at a sample: two cycles of the host fw1, the second with the ip
    of the first under another mac, leave a table with the invariant. *)
Lemma at_most_one_open_session_witness :
  let cycles := [("fw1", [mkEntry "?" "10.0.0.5" "aa" "eth0";
                          mkEntry "?" "10.0.0.6" "bb" "eth0"]);
                 ("fw1", [mkEntry "?" "10.0.0.5" "bb" "eth0"])] in
  macdb sample_world = []
  /\ length (macdb (run_cycles (take 2 cycles) sample_world)) = 3
  /\ at_most_one_open (macdb (run_cycles (take 2 cycles) sample_world)).
Proof.
  cbv zeta. split; [reflexivity|]. split; [vm_compute; reflexivity|].
  apply (proj2 (proj2 (proj2 at_most_one_open_session))). reflexivity.
Defined.

End Invariant.

(** ** The first cycle of a host *)

Section FirstCycle.

Import MacDbUpdate.

Lemma session_closes_none d : Forall no_close d -> session_closes d = [].
Proof.
  induction 1 as [|e rest He _ IH]; [reflexivity|].
  destruct e; try exact IH.
  cbn [session_closes].
  destruct rest as [|[] rest]; try exact IH.
  destruct q; try exact IH.
  destruct rest as [|[] rest]; try exact IH.
  destruct q; try exact IH.
  cbn [no_close] in He. apply String.eqb_neq in He. now rewrite He.
Qed.

Lemma update_opens host d w :
  presence_key (e_ip d) (e_mac d) ∉ members (connected_key host) w ->
  snd (update host d w)
  = mkWorld (close_matching (clock w (S (ticks w))) (e_ip d) (e_mac d) host
                            (macdb w)
             ++ [mkRow (e_mac d) (e_ip d) host (clock w (ticks w)) None
                       (clock w (S (ticks w)))])%list
            (<[tmp_key host := {[presence_key (e_ip d) (e_mac d)]}
                               ∪ members (tmp_key host) w]> (sets w))
            (scalars w)
            (<["ip-resolve-queue" :=
                 (default [] (queues w !! "ip-resolve-queue") ++ [e_ip d])%list]>
               (queues w))
            (trace w
             ++ [Statsd_incr "mac.update.update";
                 Redis_sismember (connected_key host)
                                 (presence_key (e_ip d) (e_mac d));
                 Statsd_incr "mac.update.session.open";
                 Db_query (UpdateEndByIp (clock w (S (ticks w))) (e_ip d) host);
                 Db_query (UpdateEndByMac (clock w (S (ticks w))) (e_mac d)
                                          host);
                 Db_query (InsertRow (mkRow (e_mac d) (e_ip d) host
                                            (clock w (ticks w)) None
                                            (clock w (S (ticks w)))));
                 Redis_rpush "ip-resolve-queue" (e_ip d);
                 Redis_sadd (tmp_key host)
                            (presence_key (e_ip d) (e_mac d))])%list
            (clock w) (S (S (ticks w))) (rng w) (rolls w).
Proof.
  intros Hnot. rewrite update_eq. cbv zeta.
  rewrite bool_decide_eq_false_2 by exact Hnot.
  rewrite open_session_run. destruct w as [db ss sc qs tr clk tk rg rl].
  run. f_equal. repeat rewrite <- app_assoc. reflexivity.
Qed.

Lemma close_matching_id now ip mac host db :
  (forall r, In r db ->
             open_with_ip ip host r || open_with_mac mac host r = false) ->
  close_matching now ip mac host db = db.
Proof.
  intros H. unfold close_matching. rewrite <- (map_id db) at 2.
  apply map_ext_in. intros r Hr. now rewrite (H r Hr).
Qed.

Lemma key_absent_members k w : key_exists k w = false -> members k w = ∅.
Proof.
  unfold key_exists, members. intros H.
  apply orb_false_iff in H as [H _]. apply orb_false_iff in H as [H _].
  apply bool_decide_eq_false in H.
  destruct (sets w !! k); [exfalso; apply H; eauto|reflexivity].
Qed.

Lemma connected_key_ne_queue host : "ip-resolve-queue" <> connected_key host.
Proof. unfold connected_key. cbn. discriminate. Qed.

(** The loop of the endpoint when the host has no ACTIVE set and no open
    row of the host has the ip or the mac of an entry: every entry gets a
    row, no row is closed, and ACTIVE is still absent. *)
Lemma feed_first host es : forall w,
  key_exists (connected_key host) w = false ->
  Forall valid_entry es ->
  NoDup (map e_ip es) -> NoDup (map e_mac es) ->
  (forall r d, In r (macdb w) -> In d es ->
               open_with_ip (e_ip d) host r || open_with_mac (e_mac d) host r
               = false) ->
  macdb (snd (Wsgi.feed host es w))
  = (macdb w ++ opened_rows host (clock w) (ticks w) es)%list
  /\ key_exists (connected_key host) (snd (Wsgi.feed host es w)) = false
  /\ emits no_close w (snd (Wsgi.feed host es w)).
Proof.
  induction es as [|d es IH]; intros w Habs Hvalid Hip Hmac Hfree.
  - cbn [opened_rows]. rewrite app_nil_r. repeat split; [exact Habs|].
    reflexivity.
  - rewrite feed_cons.
    apply Forall_cons in Hvalid as [Hd Hvalid].
    apply String.eqb_neq in Hd. rewrite Hd.
    assert (Hnot : presence_key (e_ip d) (e_mac d)
                   ∉ members (connected_key host) w)
      by (rewrite (key_absent_members _ _ Habs); apply not_elem_of_empty).
    pose proof (update_opens host d w Hnot) as Hw1.
    set (w1 := snd (update host d w)) in *.
    assert (Hdb : macdb w1
                  = (macdb w ++ [mkRow (e_mac d) (e_ip d) host
                                       (clock w (ticks w)) None
                                       (clock w (S (ticks w)))])%list).
    { rewrite Hw1. cbn [macdb]. rewrite close_matching_id; [reflexivity|].
      intros r Hr. apply (Hfree r d Hr). now left. }
    assert (Hclock : clock w1 = clock w) by now rewrite Hw1.
    assert (Hticks : ticks w1 = S (S (ticks w))) by now rewrite Hw1.
    assert (Habs1 : key_exists (connected_key host) w1 = false).
    { unfold key_exists in *. rewrite Hw1. cbn [sets scalars queues].
      rewrite lookup_insert_ne
        by (intros E; symmetry in E; now apply connected_key_ne_tmp_key in E).
      rewrite (lookup_insert_ne (queues w))
        by apply connected_key_ne_queue.
      exact Habs. }
    assert (Hemit : emits no_close w w1).
    { eexists. split; [rewrite Hw1; reflexivity|].
      repeat constructor; discriminate. }
    clearbody w1. clear Hw1.
    inversion Hip as [|? ? Hip1 Hip2]; subst.
    inversion Hmac as [|? ? Hmac1 Hmac2]; subst.
    destruct (IH w1 Habs1 Hvalid Hip2 Hmac2) as (Hdb' & Habs' & Hemit').
    { intros r d' Hr Hd'. rewrite Hdb in Hr.
      apply in_app_or in Hr as [Hr|[<-|[]]].
      - apply (Hfree r d' Hr). now right.
      - unfold open_with_ip, open_with_mac.
        cbn [r_ip r_mac r_server_hostname].
        assert (Hi : String.eqb (e_ip d) (e_ip d') = false).
        { apply String.eqb_neq. intros E. apply Hip1. rewrite E.
          now apply list_elem_of_In, in_map. }
        assert (Hm : String.eqb (e_mac d) (e_mac d') = false).
        { apply String.eqb_neq. intros E. apply Hmac1. rewrite E.
          now apply list_elem_of_In, in_map. }
        now rewrite Hi, Hm. }
    split; [|split].
    + rewrite Hdb', Hdb, Hclock, Hticks. cbn [opened_rows].
      now rewrite <- app_assoc.
    + exact Habs'.
    + etransitivity; [exact Hemit|exact Hemit'].
Qed.

Lemma open_rows_of_others host db :
  Forall (fun r => r_server_hostname r <> host) db -> open_rows_of host db = [].
Proof.
  induction 1 as [|r db Hr _ IH]; [reflexivity|].
  unfold open_rows_of in *. cbn [List.filter].
  apply String.eqb_neq in Hr. now rewrite Hr.
Qed.

Lemma open_rows_of_opened host clk macs : forall t,
  open_rows_of host (opened_rows host clk t macs) = opened_rows host clk t macs.
Proof.
  induction macs as [|d macs IH]; intros t; [reflexivity|].
  unfold open_rows_of in *. cbn [opened_rows List.filter r_server_hostname].
  rewrite String.eqb_refl. cbn [is_open r_end_time andb]. now rewrite IH.
Qed.

Lemma length_opened_rows host clk macs : forall t,
  length (opened_rows host clk t macs) = length macs.
Proof.
  induction macs as [|d macs IH]; intros t; [reflexivity|].
  cbn [opened_rows length]. now rewrite IH.
Qed.

(** [finish] when ACTIVE is absent: no exception, the table as it was and
    no counter of [close_session]. *)
Lemma finish_first host w :
  key_exists (connected_key host) w = false ->
  fst (finish host w) = Ok tt
  /\ macdb (snd (finish host w)) = macdb w
  /\ emits no_close w (snd (finish host w)).
Proof.
  intros Habs. rewrite finish_eq. cbv zeta. rewrite Habs.
  destruct (key_exists (tmp_key host) w) eqn:Ht.
  - destruct (redis_rename_run (tmp_key host) (connected_key host)
                (log (Redis_exists (tmp_key host))
                     (log (Redis_exists (connected_key host)) w)) Ht)
      as (Hok & Hdb & _ & Htr).
    split; [exact Hok|]. split; [exact Hdb|].
    exists [Redis_exists (connected_key host); Redis_exists (tmp_key host);
            Redis_rename (tmp_key host) (connected_key host)].
    split; [|repeat constructor].
    rewrite Htr. cbn [trace log]. now rewrite <- !app_assoc.
  - repeat split.
    exists [Redis_exists (connected_key host); Redis_exists (tmp_key host)].
    split; [|repeat constructor].
    cbn [snd trace log]. now rewrite <- !app_assoc.
Qed.

(** C6, counterexample: from an empty table and an empty Redis, a cycle
    of the two entries (10.0.0.5, aa) and (10.0.0.6, aa) leaves one open
    row, not two: the second [open_session] closes the row of the first,
    which has the same mac.  [close_session] is never called. *)
Lemma first_cycle_shared_mac :
  let macs := [mkEntry "?" "10.0.0.5" "aa" "eth0";
               mkEntry "?" "10.0.0.6" "aa" "eth0"] in
  let w' := snd (cycle "fw1" macs sample_world) in
  key_exists (connected_key "fw1") sample_world = false
  /\ macdb sample_world = []
  /\ forallb (fun d => negb (String.eqb (e_mac d) "(incomplete)")) macs = true
  /\ fst (cycle "fw1" macs sample_world) = Ok tt
  /\ length macs = 2
  /\ length (macdb w') = 2
  /\ length (open_rows_of "fw1" (macdb w')) = 1
  /\ map r_ip (open_rows_of "fw1" (macdb w')) = ["10.0.0.6"]
  /\ session_closes (new_events sample_world w') = [].
Proof. vm_compute. repeat split. Qed.

(** C6, amended: when the host has no ACTIVE set and no row, a cycle of N
    entries, none of them incomplete, with N different ips and N different
    macs, raises nothing, appends one open row per entry to the table, so
    that the host has exactly N open rows, and never calls
    [close_session]. *)
Theorem first_cycle_opens_all host macs w :
  key_exists (connected_key host) w = false ->
  Forall (fun r => r_server_hostname r <> host) (macdb w) ->
  Forall valid_entry macs ->
  NoDup (map e_ip macs) -> NoDup (map e_mac macs) ->
  let w' := snd (cycle host macs w) in
  fst (cycle host macs w) = Ok tt
  /\ macdb w' = (macdb w ++ opened_rows host (clock w) (ticks w) macs)%list
  /\ open_rows_of host (macdb w') = opened_rows host (clock w) (ticks w) macs
  /\ length (open_rows_of host (macdb w')) = length macs
  /\ session_closes (new_events w w') = [].
Proof.
  intros Habs Hrows Hvalid Hip Hmac. cbv zeta. unfold cycle.
  rewrite (bind_ok _ _ _ _ _ (feed_total host macs w)).
  destruct (feed_first host macs w Habs Hvalid Hip Hmac)
    as (Hdb & Habs1 & Hemit).
  { intros r d Hr _. rewrite Forall_forall in Hrows.
    apply list_elem_of_In, Hrows, String.eqb_neq in Hr.
    unfold open_with_ip, open_with_mac. rewrite Hr.
    now rewrite !andb_false_r. }
  destruct (finish_first host _ Habs1) as (Hok & Hdb2 & Hemit2).
  assert (Hopen : open_rows_of host
                    (macdb (snd (finish host (snd (Wsgi.feed host macs w)))))
                  = opened_rows host (clock w) (ticks w) macs).
  { rewrite Hdb2, Hdb. unfold open_rows_of. rewrite List.filter_app.
    fold (open_rows_of host (macdb w)).
    fold (open_rows_of host (opened_rows host (clock w) (ticks w) macs)).
    now rewrite (open_rows_of_others _ _ Hrows), open_rows_of_opened. }
  split; [exact Hok|]. split; [now rewrite Hdb2|].
  split; [exact Hopen|]. split; [now rewrite Hopen, length_opened_rows|].
  apply session_closes_none, emits_new_events.
  etransitivity; [exact Hemit|exact Hemit2].
Qed.

(** C6, at a sample: two entries with different ips and macs. *)
Lemma first_cycle_opens_all_witness :
  let macs := [mkEntry "?" "10.0.0.5" "aa" "eth0";
               mkEntry "?" "10.0.0.6" "bb" "eth0"] in
  let w' := snd (cycle "fw1" macs sample_world) in
  fst (cycle "fw1" macs sample_world) = Ok tt
  /\ macdb w'
     = (macdb sample_world
        ++ opened_rows "fw1" (clock sample_world) (ticks sample_world) macs)%list
  /\ open_rows_of "fw1" (macdb w')
     = opened_rows "fw1" (clock sample_world) (ticks sample_world) macs
  /\ length (open_rows_of "fw1" (macdb w')) = length macs
  /\ session_closes (new_events sample_world w') = [].
Proof.
  apply (first_cycle_opens_all "fw1").
  - reflexivity.
  - constructor.
  - repeat constructor; discriminate.
  - apply (bool_decide_unpack _). vm_compute. exact I.
  - apply (bool_decide_unpack _). vm_compute. exact I.
Defined.

End FirstCycle.

(** ** The endpoint without a valid host *)

Section Rejection.

Import Wsgi.

Lemma scan_query_none items :
  Forall (fun item => ~ names_valid_server item) items ->
  scan_query items None = None.
Proof.
  induction 1 as [|item items Hitem _ IH]; [reflexivity|].
  cbn [scan_query].
  destruct (PyStr.split "=" item) as [|name [|value [|? ?]]] eqn:E;
    try exact IH.
  destruct (String.eqb name "server" && is_valid_hostname value) eqn:Hb;
    [|exact IH].
  exfalso. apply Hitem. apply andb_true_iff in Hb as [Hn Hv].
  apply String.eqb_eq in Hn. subst name. now exists value.
Qed.

(** C9: when no item of the query string is "server=" followed by a valid
    hostname, so that the host is missing or not valid, [application]
    answers with the body "Invalid hostname", having counted the request
    and started the response and nothing else: the table and Redis are
    as they were. *)
Theorem invalid_hostname_rejected environ w :
  Forall (fun item => ~ names_valid_server item)
         (PyStr.split "&" (QUERY_STRING environ)) ->
  let w' := snd (application environ w) in
  fst (application environ w) = Ok [Text "Invalid hostname"]
  /\ macdb w' = macdb w
  /\ redis_of w' = redis_of w
  /\ new_events w w' = [Statsd_incr "mac.update.main.counter";
                        Start_response "200 OK"].
Proof.
  intros Hitems. cbv zeta. unfold application. cbv zeta.
  rewrite (scan_query_none _ Hitems).
  repeat split. apply new_events_app.
  transitivity ((trace w ++ [Statsd_incr "mac.update.main.counter"])
                ++ [Start_response "200 OK"])%list;
    [reflexivity|now rewrite <- app_assoc].
Qed.

(** C9, at a sample: a host that starts with a hyphen, and no host. *)
Lemma invalid_hostname_rejected_witness :
  let bad := mkEnviron "server=-fw1&x=1" ["? (10.0.0.5) at aa on eth0"] in
  let none := mkEnviron "x=1" [] in
  fst (application bad sample_world) = Ok [Text "Invalid hostname"]
  /\ macdb (snd (application bad sample_world)) = macdb sample_world
  /\ fst (application none sample_world) = Ok [Text "Invalid hostname"].
Proof.
  cbv zeta.
  destruct (invalid_hostname_rejected
              (mkEnviron "server=-fw1&x=1" ["? (10.0.0.5) at aa on eth0"])
              sample_world) as (H1 & H2 & _).
  { repeat constructor; intros (v & Hv & Hvalid); vm_compute in Hv;
      inversion Hv; subst; vm_compute in Hvalid; discriminate. }
  destruct (invalid_hostname_rejected (mkEnviron "x=1" []) sample_world)
    as (H3 & _).
  { repeat constructor; intros (v & Hv & Hvalid); vm_compute in Hv;
      discriminate. }
  exact (conj H1 (conj H2 H3)).
Defined.

End Rejection.

(** ** The theorems at sample worlds *)

Section Samples.

Import MacDbUpdate.




(** C5, at samples: after a cycle that reported a pair, the policy with
    a first random value of 0.125, which refreshes, and with random
    values of 0.5 a few seconds after the start, which postpones. *)
Lemma debounced_refresh_witness :
  let e1 := mkEntry "?" "10.0.0.5" "aa" "eth0" in
  let w_low := snd (cycle "fw1" [e1] (fresh_world 0.125)) in
  let w_mid := snd (cycle "fw1" [e1] sample_world) in
  let deferred_key := known_connected_key "fw1" "10.0.0.5" "aa" in
  scalars (snd (update_session "fw1" "10.0.0.5" "aa" w_low)) !! deferred_key
  = None
  /\ scalars (snd (update_session "fw1" "10.0.0.5" "aa" w_mid))
     = <[deferred_key := clock w_mid (ticks w_mid)]> (scalars w_mid).
Proof.
  cbv zeta.
  set (e1 := mkEntry "?" "10.0.0.5" "aa" "eth0").
  set (w_low := snd (cycle "fw1" [e1] (fresh_world 0.125))).
  set (w_mid := snd (cycle "fw1" [e1] sample_world)).
  pose proof (debounced_refresh "fw1" "10.0.0.5" "aa" w_low) as Hlow.
  pose proof (debounced_refresh "fw1" "10.0.0.5" "aa" w_mid) as Hmid.
  cbv zeta in Hlow, Hmid.
  destruct Hlow as (_ & _ & Hrefresh & _).
  destruct Hmid as (_ & _ & _ & Hpostpone & _).
  destruct Hrefresh as (_ & _ & H1 & _); [left; vm_compute; reflexivity|].
  destruct Hpostpone as (_ & H2 & _);
    [intros [H|H]; vm_compute in H; discriminate|].
  exact (conj H1 H2).
Defined.

End Samples.

(** ** More on the parser *)

Section ParserReads.

Import Parser.

Lemma read_lines_all lines : forall acc w,
  Forall (fun l => ~ short_line l) lines ->
  read_lines lines acc w
  = (Ok ((acc ++ map line_entry lines)%list,
         mkParser [] (Some (acc ++ map line_entry lines)%list)), w).
Proof.
  induction lines as [|l lines IH]; intros acc w Hall.
  - cbn [read_lines map]. now rewrite app_nil_r.
  - apply Forall_cons in Hall as [Hl Hall]. cbn [read_lines map].
    destruct (Nat.ltb_spec (length (tokens l)) 6) as [Hlt|_];
      [now destruct Hl|].
    rewrite IH by exact Hall. unfold line_entry.
    now rewrite <- !app_assoc.
Qed.

Lemma read_lines_stop good bad rest : forall acc w,
  Forall (fun l => ~ short_line l) good -> short_line bad ->
  read_lines (good ++ bad :: rest) acc w
  = (Ok ([], mkParser rest (Some (acc ++ map line_entry good)%list)),
     log (Print "Invalid ARP file format.") w).
Proof.
  induction good as [|l good IH]; intros acc w Hgood Hbad.
  - cbn [app read_lines map]. rewrite app_nil_r.
    destruct (Nat.ltb_spec (length (tokens bad)) 6) as [_|Hge];
      [reflexivity|unfold short_line in Hbad; lia].
  - apply Forall_cons in Hgood as [Hl Hgood].
    change ((l :: good) ++ bad :: rest)%list
      with (l :: (good ++ bad :: rest))%list.
    cbn [read_lines map].
    destruct (Nat.ltb_spec (length (tokens l)) 6) as [Hlt|_];
      [now destruct Hl|].
    rewrite IH by assumption. unfold line_entry.
    now rewrite <- !app_assoc.
Qed.

(** X1: with an empty cache and an input whose lines all have six pieces
    or more, [entries] gives one entry per line, in the order of the
    lines, prints nothing and leaves a parser that gives the same list at
    every later access. *)
Theorem entries_reads_every_line self w :
  _entries self = Some [] ->
  Forall (fun l => ~ short_line l) (afile self) ->
  let es := map line_entry (afile self) in
  entries self w = (Ok (es, mkParser [] (Some es)), w)
  /\ length es = length (afile self)
  /\ (forall w', entries (mkParser [] (Some es)) w'
                 = (Ok (es, mkParser [] (Some es)), w')).
Proof.
  intros Hcache Hall. cbv zeta. split; [|split].
  - unfold entries. rewrite Hcache. now rewrite read_lines_all.
  - apply length_map.
  - intros w'. unfold entries. cbn [_entries afile].
    now destruct (map line_entry (afile self)).
Qed.

Lemma entries_reads_every_line_witness :
  let lines := ["? (10.0.0.5) at aa:bb on em0"; "gw (10.0.0.1) at cc on em1"] in
  entries (mkParser lines (Some [])) sample_world
  = (Ok ([mkEntry "?" "10.0.0.5" "aa:bb" "em0";
          mkEntry "gw" "10.0.0.1" "cc" "em1"],
         mkParser [] (Some [mkEntry "?" "10.0.0.5" "aa:bb" "em0";
                            mkEntry "gw" "10.0.0.1" "cc" "em1"])),
     sample_world).
Proof.
  apply (entries_reads_every_line
           (mkParser ["? (10.0.0.5) at aa:bb on em0";
                      "gw (10.0.0.1) at cc on em1"] (Some [])) sample_world).
  - reflexivity.
  - repeat constructor; unfold short_line; vm_compute; lia.
Defined.

(** X2: when the first malformed line comes after lines that are well
    formed, the access that meets it returns the empty list but leaves the
    entries of the earlier lines in the cache: the next access returns
    them.  When the malformed line is the first one, the next access reads
    on after it. *)
Theorem entries_after_malformed_line self good bad rest w :
  _entries self = Some [] ->
  afile self = (good ++ bad :: rest)%list ->
  Forall (fun l => ~ short_line l) good -> short_line bad ->
  let p := mkParser rest (Some (map line_entry good)) in
  entries self w = (Ok ([], p), log (Print "Invalid ARP file format.") w)
  /\ (good <> [] ->
      forall w', entries p w' = (Ok (map line_entry good, p), w'))
  /\ (good = [] -> Forall (fun l => ~ short_line l) rest ->
      forall w', entries p w'
                 = (Ok (map line_entry rest,
                        mkParser [] (Some (map line_entry rest))), w')).
Proof.
  intros Hcache Hfile Hgood Hbad. cbv zeta. split; [|split].
  - unfold entries. rewrite Hcache, Hfile.
    now rewrite read_lines_stop.
  - intros Hne w'. unfold entries. cbn [_entries].
    destruct good as [|l good]; [now destruct Hne|reflexivity].
  - intros -> Hrest w'. unfold entries. cbn [_entries afile map].
    now rewrite read_lines_all.
Qed.

Lemma entries_after_malformed_line_witness :
  let p := mkParser ["gw (10.0.0.1) at cc on em1"]
                    (Some [mkEntry "?" "10.0.0.5" "aa:bb" "em0"]) in
  entries (mkParser ["? (10.0.0.5) at aa:bb on em0"; "";
                     "gw (10.0.0.1) at cc on em1"] (Some [])) sample_world
  = (Ok ([], p), log (Print "Invalid ARP file format.") sample_world)
  /\ entries p sample_world
     = (Ok ([mkEntry "?" "10.0.0.5" "aa:bb" "em0"], p), sample_world).
Proof.
  destruct (entries_after_malformed_line
              (mkParser ["? (10.0.0.5) at aa:bb on em0"; "";
                         "gw (10.0.0.1) at cc on em1"] (Some []))
              ["? (10.0.0.5) at aa:bb on em0"] ""
              ["gw (10.0.0.1) at cc on em1"] sample_world)
    as (H1 & H2 & _).
  - reflexivity.
  - reflexivity.
  - repeat constructor; unfold short_line; vm_compute; lia.
  - unfold short_line. vm_compute. lia.
  - split; [exact H1|]. apply H2. discriminate.
Defined.

Lemma item_valid_spec kwargs item :
  item_valid kwargs item = true
  <-> forall k v, In (k, v) kwargs ->
                  exists x, field item k = Some x /\ x <> v.
Proof.
  unfold item_valid. rewrite forallb_forall. split.
  - intros H k v Hkv. specialize (H (k, v) Hkv). cbn [fst snd] in H.
    destruct (field item k) as [x|]; [|discriminate].
    exists x. split; [reflexivity|].
    apply String.eqb_neq. now destruct (String.eqb x v).
  - intros H [k v] Hkv. cbn [fst snd].
    destruct (H k v Hkv) as (x & -> & Hx).
    apply String.eqb_neq in Hx. now rewrite Hx.
Qed.

(** X3: on a parser with a cache that is not empty, [get] reads nothing
    and returns, in the order of the cache, the entries that have every
    key named and, under each, a value that differs from the one given:
    [get(mac=m)] returns no entry whose mac is [m].  Without arguments
    it returns the whole cache; with a key no entry has it returns
    nothing. *)
Theorem get_returns_the_different self kwargs e cached w :
  _entries self = Some (e :: cached) ->
  exists found,
    get self kwargs w = (Ok (found, self), w)
    /\ found = List.filter (item_valid kwargs) (e :: cached)
    /\ (forall item,
          In item found
          <-> In item (e :: cached)
              /\ forall k v, In (k, v) kwargs ->
                             exists x, field item k = Some x /\ x <> v)
    /\ (kwargs = [] -> found = e :: cached)
    /\ (forall k v, In (k, v) kwargs ->
                    ~ In k ["hostname"; "ip"; "mac"; "interface"] ->
                    found = []).
Proof.
  intros Hcache. exists (List.filter (item_valid kwargs) (e :: cached)).
  split; [|split; [reflexivity|split; [|split]]].
  - unfold get, bind, entries. now rewrite Hcache.
  - intros item. rewrite filter_In. now rewrite item_valid_spec.
  - intros ->. generalize (e :: cached). intros l.
    induction l as [|c l IH]; [reflexivity|].
    cbn [List.filter item_valid forallb]. now rewrite IH.
  - intros k v Hkv Hk.
    assert (Hnone : forall item, item_valid kwargs item = false).
    { intros item. destruct (item_valid kwargs item) eqn:Hv; [|reflexivity].
      destruct (proj1 (item_valid_spec kwargs item) Hv k v Hkv)
        as (x & Hx & _).
      unfold field in Hx.
      destruct (String.eqb_spec k "hostname") as [->|_];
        [destruct Hk; now left|].
      destruct (String.eqb_spec k "ip") as [->|_];
        [destruct Hk; right; now left|].
      destruct (String.eqb_spec k "mac") as [->|_];
        [destruct Hk; right; right; now left|].
      destruct (String.eqb_spec k "interface") as [->|_];
        [destruct Hk; right; right; right; now left|].
      discriminate. }
    generalize (e :: cached). intros l.
    induction l as [|c l IH]; [reflexivity|].
    cbn [List.filter]. now rewrite Hnone.
Qed.

Lemma get_returns_the_different_witness :
  let a := mkEntry "?" "10.0.0.5" "aa" "em0" in
  let b := mkEntry "?" "10.0.0.6" "bb" "em0" in
  exists found,
    get (mkParser [] (Some [a; b])) [("mac", "aa")] sample_world
    = (Ok (found, mkParser [] (Some [a; b])), sample_world)
    /\ found = [b].
Proof.
  cbv zeta.
  destruct (get_returns_the_different
              (mkParser [] (Some [mkEntry "?" "10.0.0.5" "aa" "em0";
                                  mkEntry "?" "10.0.0.6" "bb" "em0"]))
              [("mac", "aa")] (mkEntry "?" "10.0.0.5" "aa" "em0")
              [mkEntry "?" "10.0.0.6" "bb" "em0"] sample_world)
    as (found & Hrun & Hfound & _); [reflexivity|].
  exists found. split; [exact Hrun|]. rewrite Hfound. reflexivity.
Defined.

Lemma has_char_remove c s : has_char c (PyStr.remove c s) = false.
Proof.
  unfold has_char. induction s as [|d s IH]; [reflexivity|].
  cbn [PyStr.remove]. destruct (Ascii.eqb_spec d c) as [->|Hne];
    [exact IH|].
  cbn [list_ascii_of_string existsb]. rewrite IH.
  destruct (Ascii.eqb_spec c d) as [->|_]; [now destruct Hne|reflexivity].
Qed.

Lemma has_char_remove_other c d s :
  has_char c s = false -> has_char c (PyStr.remove d s) = false.
Proof.
  unfold has_char. induction s as [|x s IH]; [reflexivity|].
  cbn [list_ascii_of_string existsb PyStr.remove]. intros H.
  apply orb_false_iff in H as [Hx Hs].
  destruct (Ascii.eqb x d); [now apply IH|].
  cbn [list_ascii_of_string existsb]. now rewrite Hx, IH.
Qed.

Lemma read_lines_result lines : forall acc w,
  exists es p w',
    read_lines lines acc w = (Ok (es, p), w')
    /\ (es = [] \/ es = (acc ++ map line_entry lines)%list).
Proof.
  induction lines as [|l lines IH]; intros acc w.
  - exists acc, (mkParser [] (Some acc)), w. split; [reflexivity|].
    right. cbn [map]. now rewrite app_nil_r.
  - cbn [read_lines map].
    destruct (Nat.ltb (length (tokens l)) 6).
    + eexists _, _, _. split; [reflexivity|now left].
    + destruct (IH (acc ++ [entry_of (tokens l)])%list w)
        as (es & p & w' & Hrun & Hes).
      exists es, p, w'. split; [exact Hrun|].
      destruct Hes as [->| ->]; [now left|right].
      unfold line_entry. now rewrite <- app_assoc.
Qed.

(** X4: with an empty cache, [entries] raises nothing, and the list it
    returns is empty or has an entry for every line; the ip of an entry
    has no parenthesis left, wherever the line had them. *)
Theorem entries_ip_without_parentheses self w :
  _entries self = Some [] ->
  exists es p w',
    entries self w = (Ok (es, p), w')
    /\ (es = [] \/ es = map line_entry (afile self))
    /\ Forall (fun e => has_char "(" (e_ip e) = false
                        /\ has_char ")" (e_ip e) = false) es.
Proof.
  intros Hcache. unfold entries. rewrite Hcache.
  destruct (read_lines_result (afile self) [] w)
    as (es & p & w' & Hrun & Hes).
  exists es, p, w'. split; [exact Hrun|]. split; [exact Hes|].
  destruct Hes as [->| ->]; [constructor|]. cbn [app].
  apply Forall_forall. intros e He.
  apply list_elem_of_In, in_map_iff in He as (l & <- & _).
  unfold line_entry, entry_of. cbn [e_ip]. split.
  - apply has_char_remove_other, has_char_remove.
  - apply has_char_remove.
Qed.

Lemma entries_ip_without_parentheses_witness :
  exists es p w',
    entries (mkParser ["? ((10.0.0.5)) at aa on em0"] (Some [])) sample_world
    = (Ok (es, p), w')
    /\ (es = [] \/ es = map line_entry ["? ((10.0.0.5)) at aa on em0"])
    /\ Forall (fun e => has_char "(" (e_ip e) = false
                        /\ has_char ")" (e_ip e) = false) es.
Proof.
  apply (entries_ip_without_parentheses
           (mkParser ["? ((10.0.0.5)) at aa on em0"] (Some [])) sample_world).
  reflexivity.
Defined.

End ParserReads.

(** ** Presence keys *)

Section PresenceKeys.

Import MacDbUpdate.

Lemma split_not_nil sep s : PyStr.split sep s <> [].
Proof.
  destruct s as [|c s]; [discriminate|]. cbn [PyStr.split].
  destruct (Ascii.eqb c sep); [discriminate|].
  destruct (PyStr.split sep s); discriminate.
Qed.

Lemma split_no_sep sep s :
  has_char sep s = false -> PyStr.split sep s = [s].
Proof.
  unfold has_char. induction s as [|c s IH]; [reflexivity|].
  cbn [list_ascii_of_string existsb PyStr.split]. intros H.
  apply orb_false_iff in H as [Hc Hs].
  destruct (Ascii.eqb_spec c sep) as [->|_];
    [now rewrite Ascii.eqb_refl in Hc|].
  now rewrite (IH Hs).
Qed.

Lemma split_append sep a b :
  has_char sep a = false ->
  PyStr.split sep (a +:+ String sep b) = a :: PyStr.split sep b.
Proof.
  unfold has_char. induction a as [|c a IH].
  - intros _. change ("" +:+ String sep b) with (String sep b).
    cbn [PyStr.split]. now rewrite Ascii.eqb_refl.
  - cbn [list_ascii_of_string existsb]. intros H.
    apply orb_false_iff in H as [Hc Ha].
    change (String c a +:+ String sep b) with (String c (a +:+ String sep b)).
    cbn [PyStr.split].
    destruct (Ascii.eqb_spec c sep) as [->|_];
      [now rewrite Ascii.eqb_refl in Hc|].
    now rewrite (IH Ha).
Qed.

Lemma length_split_step sep c s :
  Ascii.eqb c sep = false ->
  length (PyStr.split sep (String c s)) = length (PyStr.split sep s).
Proof.
  intros Hc. cbn [PyStr.split]. rewrite Hc.
  pose proof (split_not_nil sep s) as Hne.
  now destruct (PyStr.split sep s).
Qed.

Lemma length_split_append sep a b :
  length (PyStr.split sep (a +:+ String sep b))
  = length (PyStr.split sep a) + length (PyStr.split sep b).
Proof.
  induction a as [|c a IH].
  - change ("" +:+ String sep b) with (String sep b).
    cbn [PyStr.split]. now rewrite Ascii.eqb_refl.
  - change (String c a +:+ String sep b) with (String c (a +:+ String sep b)).
    destruct (Ascii.eqb c sep) eqn:Hc.
    + cbn [PyStr.split]. rewrite Hc. cbn [length]. now rewrite IH.
    + now rewrite !length_split_step, IH by exact Hc.
Qed.

Lemma length_split_sep sep s :
  has_char sep s = true -> 2 <= length (PyStr.split sep s).
Proof.
  unfold has_char. induction s as [|c s IH]; [discriminate|].
  cbn [list_ascii_of_string existsb]. intros H.
  destruct (Ascii.eqb c sep) eqn:Hc.
  - cbn [PyStr.split]. rewrite Hc. cbn [length].
    pose proof (split_not_nil sep s). destruct (PyStr.split sep s);
      [congruence|cbn [length]; lia].
  - rewrite length_split_step by exact Hc. apply IH.
    destruct (Ascii.eqb_spec sep c) as [->|_];
      [now rewrite Ascii.eqb_refl in Hc|exact H].
Qed.

Lemma length_split_pos sep s : 1 <= length (PyStr.split sep s).
Proof.
  pose proof (split_not_nil sep s).
  destruct (PyStr.split sep s); [congruence|cbn [length]; lia].
Qed.

(** X5: the key of a pair whose ip and mac have no underscore splits back
    into the pair, so that [finish] closes the session of that ip and mac;
    when the ip or the mac has an underscore, the key has three pieces or
    more and closing it raises ValueError, whatever the other part is. *)
Theorem presence_key_round_trip host ip mac w :
  (has_char "_" ip = false -> has_char "_" mac = false ->
   key_parts (presence_key ip mac) = (ip, mac)
   /\ well_formed_key (presence_key ip mac)
   /\ close_key host (presence_key ip mac) w
      = close_session host ip mac None w)
  /\ (has_char "_" ip = true \/ has_char "_" mac = true ->
      ~ well_formed_key (presence_key ip mac)
      /\ close_key host (presence_key ip mac) w = (Raise ValueError, w)).
Proof.
  assert (Hkey : presence_key ip mac = ip +:+ String "_" mac) by reflexivity.
  split.
  - intros Hip Hmac.
    assert (Hsplit : PyStr.split "_" (presence_key ip mac) = [ip; mac])
      by (rewrite Hkey, split_append, split_no_sep; trivial).
    unfold key_parts, well_formed_key, close_key. rewrite Hsplit.
    split; [reflexivity|]. split; [now exists ip, mac|reflexivity].
  - intros Hunder.
    assert (Hlen : 3 <= length (PyStr.split "_" (presence_key ip mac))).
    { rewrite Hkey, length_split_append.
      pose proof (length_split_pos "_" ip) as Hi.
      pose proof (length_split_pos "_" mac) as Hm.
      destruct Hunder as [Hu|Hu]; apply length_split_sep in Hu; lia. }
    unfold well_formed_key, close_key. split.
    + intros (a & b & E). rewrite E in Hlen. cbn [length] in Hlen. lia.
    + destruct (PyStr.split "_" (presence_key ip mac)) as [|a [|b [|c l]]];
        try reflexivity; cbn [length] in Hlen; lia.
Qed.

End PresenceKeys.

(** ** The endpoint with a valid host *)

Section Endpoint.

Import Wsgi.

Lemma scan_query_keeps_valid items : forall h,
  is_valid_hostname h = true ->
  exists h', scan_query items (Some h) = Some h'
             /\ is_valid_hostname h' = true.
Proof.
  induction items as [|item items IH]; intros h Hh.
  - now exists h.
  - cbn [scan_query].
    destruct (PyStr.split "=" item) as [|name [|value [|? ?]]];
      try (now apply IH).
    destruct (String.eqb name "server" && is_valid_hostname value) eqn:Hb;
      [|now apply IH].
    apply andb_true_iff in Hb as [_ Hv]. now apply IH.
Qed.

Lemma scan_query_found items :
  Exists names_valid_server items ->
  forall h0, exists h, scan_query items h0 = Some h
                       /\ is_valid_hostname h = true.
Proof.
  induction 1 as [item items (value & Hsplit & Hvalid)|item items _ IH];
    intros h0; cbn [scan_query].
  - rewrite Hsplit, Hvalid. cbn [String.eqb andb].
    change (String.eqb "server" "server") with true. cbn [andb].
    now apply scan_query_keeps_valid.
  - destruct (PyStr.split "=" item) as [|name [|value [|? ?]]];
      try apply IH.
    destruct (String.eqb name "server" && is_valid_hostname value);
      apply IH.
Qed.

(** X6: [application] never reaches the reconciliation: when an item of
    the query string is "server=" followed by a valid hostname, the
    construction of the parser raises AttributeError; and for every
    request, with or without a valid host, the table and Redis are left
    as they were and the only calls made are the counter and the start of
    the response. *)
Theorem application_never_reconciles environ w :
  let w' := snd (application environ w) in
  macdb w' = macdb w
  /\ redis_of w' = redis_of w
  /\ new_events w w' = [Statsd_incr "mac.update.main.counter";
                        Start_response "200 OK"]
  /\ (Exists names_valid_server (PyStr.split "&" (QUERY_STRING environ)) ->
      fst (application environ w) = Raise AttributeError).
Proof.
  cbv zeta.
  assert (Htrace : forall w1 : World,
             trace w1 = ((trace w ++ [Statsd_incr "mac.update.main.counter"])
                         ++ [Start_response "200 OK"])%list ->
             new_events w w1 = [Statsd_incr "mac.update.main.counter";
                                Start_response "200 OK"]).
  { intros w1 H1. apply new_events_app. rewrite H1.
    now rewrite <- app_assoc. }
  split; [|split; [|split]].
  - unfold application. cbv zeta.
    now destruct (scan_query _ None) as [[|c h]|].
  - unfold application. cbv zeta.
    now destruct (scan_query _ None) as [[|c h]|].
  - unfold application. cbv zeta.
    destruct (scan_query _ None) as [[|c h]|]; now apply Htrace.
  - intros Hex.
    destruct (scan_query_found _ Hex None) as (h & Hscan & Hvalid).
    unfold application. cbv zeta. rewrite Hscan.
    destruct h as [|c h]; [discriminate Hvalid|reflexivity].
Qed.

(** X6, at a sample: a request of the host fw1. *)
Lemma application_never_reconciles_witness :
  fst (application (mkEnviron "server=fw1" ["? (10.0.0.5) at aa on em0"])
                   sample_world)
  = Raise AttributeError.
Proof.
  apply (application_never_reconciles
           (mkEnviron "server=fw1" ["? (10.0.0.5) at aa on em0"])
           sample_world).
  apply Exists_cons_hd. exists "fw1". split; vm_compute; reflexivity.
Defined.

End Endpoint.

(** ** The history in the table *)

Section History.

Import MacDbUpdate.

Variable host : string.

Lemma row_kept_refl r : row_kept host r r.
Proof. repeat split; auto. Qed.

Lemma row_kept_trans r1 r2 r3 :
  row_kept host r1 r2 -> row_kept host r2 r3 -> row_kept host r1 r3.
Proof.
  intros (Hm & Hi & Hh & Hs & He & Ho) (Hm' & Hi' & Hh' & Hs' & He' & Ho').
  repeat split; try congruence.
  - intros t Ht. now apply He', He.
  - intros Hne. rewrite <- (Ho Hne). apply Ho'. now rewrite Hh.
Qed.

Lemma rows_kept_refl db : Forall2 (row_kept host) db db.
Proof. induction db; constructor; [apply row_kept_refl|assumption]. Qed.

Lemma rows_kept_trans db1 db2 : forall db3,
  Forall2 (row_kept host) db1 db2 -> Forall2 (row_kept host) db2 db3 ->
  Forall2 (row_kept host) db1 db3.
Proof.
  intros db3 H12. revert db3.
  induction H12 as [|r1 r2 l1 l2 Hr _ IH]; intros db3 H23;
    inversion H23 as [|? r3 ? l3 Hr' Hl']; subst; constructor.
  - now apply (row_kept_trans r1 r2).
  - now apply IH.
Qed.

Lemma rows_kept_host added added' :
  Forall2 (row_kept host) added added' ->
  Forall (fun r => r_server_hostname r = host) added ->
  Forall (fun r => r_server_hostname r = host) added'.
Proof.
  induction 1 as [|r r' l l' (_ & _ & Hh & _) _ IH]; [constructor|].
  intros Hall. apply Forall_cons in Hall as [Hr Hall].
  constructor; [congruence|now apply IH].
Qed.

#[local] Instance history_kept_preorder : PreOrder (history_kept host).
Proof.
  split.
  - intros w. exists (macdb w), []. rewrite app_nil_r.
    split; [reflexivity|]. split; [apply rows_kept_refl|constructor].
  - intros w1 w2 w3 (k1 & a1 & E1 & K1 & A1) (k2 & a2 & E2 & K2 & A2).
    rewrite E1 in K2. apply Forall2_app_inv_l in K2
      as (k2a & k2b & Ka & Kb & ->).
    exists k2a, (k2b ++ a2)%list. split; [now rewrite E2, <- app_assoc|].
    split.
    + now apply (rows_kept_trans _ k1).
    + apply Forall_app. split; [|exact A2].
      now apply (rows_kept_host a1).
Qed.

Lemma update_where_kept p f db :
  (forall r, p r = true -> row_kept host r (f r)) ->
  Forall2 (row_kept host) db (update_where p f db).
Proof.
  intros Hf. induction db as [|r db IH]; [constructor|].
  change (update_where p f (r :: db))
    with ((if p r then f r else r) :: update_where p f db).
  constructor; [|exact IH].
  destruct (p r) eqn:Hp; [now apply Hf|apply row_kept_refl].
Qed.

Lemma history_quiet {A} (m : M A) :
  (forall w, macdb (snd (m w)) = macdb w) -> respects (history_kept host) m.
Proof.
  intros Hm w. exists (macdb w), []. rewrite app_nil_r.
  split; [apply Hm|]. split; [apply rows_kept_refl|constructor].
Qed.

Lemma history_db_query q :
  statement_host q = host -> respects (history_kept host) (db_query q).
Proof.
  intros Hq w.
  change (macdb (snd (db_query q w))) with (execute q (macdb w)).
  unfold history_kept.
  change (macdb (snd (db_query q w))) with (execute q (macdb w)).
  destruct q as [now ip h|now mac h|r|now ip mac h];
    cbn [statement_host] in Hq; cbn [execute].
  - eexists _, []. rewrite app_nil_r. split; [reflexivity|].
    split; [|constructor]. apply update_where_kept. intros r Hp.
    unfold open_with_ip in Hp.
    apply andb_true_iff in Hp as [Hp Hopen].
    apply andb_true_iff in Hp as [_ Hh]. apply String.eqb_eq in Hh.
    unfold is_open in Hopen. repeat split; cbn; try congruence.
    intros t Ht. now rewrite Ht in Hopen.
  - eexists _, []. rewrite app_nil_r. split; [reflexivity|].
    split; [|constructor]. apply update_where_kept. intros r Hp.
    unfold open_with_mac in Hp.
    apply andb_true_iff in Hp as [Hp Hopen].
    apply andb_true_iff in Hp as [_ Hh]. apply String.eqb_eq in Hh.
    unfold is_open in Hopen. repeat split; cbn; try congruence.
    intros t Ht. now rewrite Ht in Hopen.
  - exists (macdb w), [r]. split; [reflexivity|].
    split; [apply rows_kept_refl|now repeat constructor].
  - eexists _, []. rewrite app_nil_r. split; [reflexivity|].
    split; [|constructor]. apply update_where_kept. intros r Hp.
    unfold session_of in Hp.
    apply andb_true_iff in Hp as [_ Hh]. apply String.eqb_eq in Hh.
    repeat split; cbn; congruence.
Qed.

Lemma history_redis_rename src dst :
  respects (history_kept host) (redis_rename src dst).
Proof.
  apply history_quiet. intros w. unfold redis_rename.
  now destruct (key_exists src w).
Qed.

(** One step through a computation whose statements are about [host]. *)
Ltac history_step :=
  match goal with
  | |- respects _ (bind _ _) =>
      refine (@respects_bind _ _ _ _ _ _ _ _); [|intros ?]
  | |- respects _ (ret _) => refine (@respects_ret _ _ _ _)
  | |- respects _ (raise _) => refine (@respects_raise _ _ _ _)
  | |- respects _ (for_each _ _) =>
      refine (@respects_for_each _ _ _ _ _ _); intros ?
  | |- respects _ (if ?b then _ else _) => destruct b
  | |- respects _ (match ?x with _ => _ end) => destruct x
  | |- respects _ (db_query _) => apply history_db_query; reflexivity
  | |- respects _ (redis_rename _ _) => apply history_redis_rename
  | |- respects _ _ => apply history_quiet; intros ?; reflexivity
  end.

Lemma open_session_history ip mac start_time end_time :
  respects (history_kept host) (open_session host ip mac start_time end_time).
Proof. unfold open_session. repeat (cbv beta zeta; history_step). Qed.

Lemma close_session_history ip mac end_time :
  respects (history_kept host) (close_session host ip mac end_time).
Proof. unfold close_session. repeat (cbv beta zeta; history_step). Qed.

Lemma update_session_history ip mac :
  respects (history_kept host) (update_session host ip mac).
Proof. unfold update_session. repeat (cbv beta zeta; history_step). Qed.

Lemma update_history d : respects (history_kept host) (update host d).
Proof.
  unfold update. cbv beta zeta.
  history_step; [history_step|]. history_step; [history_step|].
  history_step.
  - destruct (negb a0).
    + history_step; [history_step|]. apply open_session_history.
    + apply update_session_history.
  - history_step.
Qed.

Lemma close_key_history k : respects (history_kept host) (close_key host k).
Proof.
  unfold close_key.
  destruct (PyStr.split "_" k) as [|a [|b [|c l]]];
    match goal with
    | |- respects _ (raise _) => refine (@respects_raise _ _ _ _)
    | |- _ => apply close_session_history
    end.
Qed.

Lemma finish_history : respects (history_kept host) (finish host).
Proof.
  unfold finish. cbv beta zeta.
  repeat match goal with
         | |- respects _ (close_key _ _) => apply close_key_history
         | |- _ => cbv beta zeta; history_step
         end.
Qed.

Lemma cycle_history macs : respects (history_kept host) (cycle host macs).
Proof.
  unfold cycle. refine (@respects_bind _ _ _ _ _ _ _ _).
  - unfold Wsgi.feed. refine (@respects_for_each _ _ _ _ _ _).
    intros d. destruct (String.eqb _ _); [refine (@respects_ret _ _ _ _)|].
    apply update_history.
  - intros _. apply finish_history.
Qed.

End History.

(** X7: the operations of the engine for a host keep the history in the
    table.  After any of them, and after a whole cycle, every row is
    where it was, with the mac, ip, host and start time it had; a row
    that had an end time has the same one; a row of another host is
    untouched; and what the table gained is rows of the host, at its
    end.  No row is ever deleted. *)
Theorem history_is_kept :
  (forall c w, history_kept (call_host c) w (snd (run_call c w)))
  /\ (forall host macs w, history_kept host w (snd (cycle host macs w)))
  /\ (forall host w w',
        history_kept host w w' ->
        length (macdb w) <= length (macdb w')
        /\ forall i r, macdb w !! i = Some r ->
                       exists r', macdb w' !! i = Some r'
                                  /\ row_kept host r r').
Proof.
  split; [|split].
  - intros [h ip mac st e|h ip mac e|h ip mac|h d|h] w;
      cbn [call_host run_call].
    + apply open_session_history.
    + apply close_session_history.
    + apply update_session_history.
    + apply update_history.
    + apply finish_history.
  - intros host macs w. apply cycle_history.
  - intros host w w' (kept & added & E & K & _).
    pose proof (Forall2_length _ _ _ K) as Hlen. split.
    + rewrite E, length_app. lia.
    + intros i r Hi.
      destruct (Forall2_lookup_l _ _ _ _ _ K Hi) as (r' & Hr' & Hk).
      exists r'. split; [|exact Hk]. rewrite E.
      now apply lookup_app_l_Some.
Qed.

(** X7, at a sample: a row that was closed in the second cycle is where
    it was after a third one, with its end time. *)
Lemma history_is_kept_witness :
  let e1 := mkEntry "?" "10.0.0.5" "aa" "eth0" in
  let e2 := mkEntry "?" "10.0.0.6" "bb" "eth0" in
  let w2 := run_cycles [("fw1", [e1; e2]); ("fw1", [e2])] sample_world in
  let w3 := snd (cycle "fw1" [e1] w2) in
  exists r r',
    macdb w2 !! 0 = Some r /\ r_end_time r <> None
    /\ macdb w3 !! 0 = Some r' /\ row_kept "fw1" r r'.
Proof.
  cbv zeta.
  set (w2 := run_cycles _ sample_world).
  destruct (proj2 (proj2 history_is_kept) "fw1" w2
              (snd (cycle "fw1" [mkEntry "?" "10.0.0.5" "aa" "eth0"] w2))
              (proj1 (proj2 history_is_kept) "fw1" _ w2)) as [_ Hrow].
  destruct (macdb w2 !! 0) as [r|] eqn:Hr; [|vm_compute in Hr; discriminate].
  destruct (Hrow 0 r Hr) as (r' & Hr' & Hkept).
  exists r, r'. split; [reflexivity|]. split; [|now split].
  intros Hend. vm_compute in Hr. injection Hr as <-. discriminate Hend.
Defined.

(** ** The work queue *)

Section WorkQueue.

Import MacDbUpdate.

#[local] Instance queue_grows_preorder : PreOrder queue_grows.
Proof.
  split.
  - intros w. exists []. now rewrite app_nil_r.
  - intros w1 w2 w3 [p1 H1] [p2 H2]. exists (p1 ++ p2)%list.
    now rewrite H2, H1, <- app_assoc.
Qed.

Lemma queue_quiet {A} (m : M A) :
  (forall w, queues (snd (m w)) = queues w) -> respects queue_grows m.
Proof. intros Hm w. exists []. now rewrite Hm, app_nil_r. Qed.

Lemma queue_redis_rpush k v : respects queue_grows (redis_rpush k v).
Proof.
  intros w. unfold queue_grows.
  change (queues (snd (redis_rpush k v w)))
    with (<[k := (default [] (queues w !! k) ++ [v])%list]> (queues w)).
  destruct (decide (k = "ip-resolve-queue")) as [->|Hne].
  - exists [v]. now rewrite lookup_insert_eq.
  - exists []. now rewrite lookup_insert_ne, app_nil_r.
Qed.

Lemma queue_redis_delete k :
  k <> "ip-resolve-queue" -> respects queue_grows (redis_delete k).
Proof.
  intros Hne w. exists []. rewrite app_nil_r.
  change (queues (snd (redis_delete k w))) with (delete k (queues w)).
  now rewrite lookup_delete_ne.
Qed.

Lemma queue_redis_rename src dst :
  src <> "ip-resolve-queue" -> dst <> "ip-resolve-queue" ->
  respects queue_grows (redis_rename src dst).
Proof.
  intros Hsrc Hdst w. exists []. rewrite app_nil_r. unfold redis_rename.
  destruct (key_exists src w); [|reflexivity].
  change (queues (snd (Ok tt, ?x))) with (queues x).
  cbn [snd]. change (queues (log ?e ?x)) with (queues x).
  change (queues (with_sets ?a (with_scalars ?b (with_queues ?q w))))
    with q.
  unfold rename_in. destruct (queues w !! src).
  - now rewrite lookup_insert_ne, lookup_delete_ne.
  - now rewrite lookup_delete_ne.
Qed.

Lemma connected_key_not_queue host : connected_key host <> "ip-resolve-queue".
Proof. unfold connected_key. cbn. discriminate. Qed.

Lemma tmp_key_not_queue host :
  connected_key host +:+ "-tmp" <> "ip-resolve-queue".
Proof. unfold connected_key. cbn. discriminate. Qed.

Lemma update_key_not_queue host ip mac suffix :
  update_prefix host ip mac +:+ suffix <> "ip-resolve-queue".
Proof. unfold update_prefix. cbn. discriminate. Qed.

(** One step through a computation of the engine. *)
Ltac queue_step :=
  match goal with
  | |- respects _ (bind _ _) =>
      refine (@respects_bind _ _ _ _ _ _ _ _); [|intros ?]
  | |- respects _ (ret _) => refine (@respects_ret _ _ _ _)
  | |- respects _ (raise _) => refine (@respects_raise _ _ _ _)
  | |- respects _ (for_each _ _) =>
      refine (@respects_for_each _ _ _ _ _ _); intros ?
  | |- respects _ (if ?b then _ else _) => destruct b
  | |- respects _ (match ?x with _ => _ end) => destruct x
  | |- respects _ (redis_rpush _ _) => apply queue_redis_rpush
  | |- respects _ (redis_delete _) =>
      apply queue_redis_delete;
      first [apply connected_key_not_queue|apply update_key_not_queue]
  | |- respects _ (redis_rename _ _) =>
      apply queue_redis_rename;
      first [apply connected_key_not_queue|apply tmp_key_not_queue]
  | |- respects _ _ => apply queue_quiet; intros ?; reflexivity
  end.

Lemma open_session_queue host ip mac start_time end_time :
  respects queue_grows (open_session host ip mac start_time end_time).
Proof. unfold open_session. repeat (cbv beta zeta; queue_step). Qed.

Lemma close_session_queue host ip mac end_time :
  respects queue_grows (close_session host ip mac end_time).
Proof. unfold close_session. repeat (cbv beta zeta; queue_step). Qed.

Lemma update_session_queue host ip mac :
  respects queue_grows (update_session host ip mac).
Proof. unfold update_session. repeat (cbv beta zeta; queue_step). Qed.

Lemma update_queue host d : respects queue_grows (update host d).
Proof.
  unfold update. cbv beta zeta.
  queue_step; [queue_step|]. queue_step; [queue_step|]. queue_step.
  - destruct (negb a0).
    + queue_step; [queue_step|]. apply open_session_queue.
    + apply update_session_queue.
  - queue_step.
Qed.

Lemma close_key_queue host k : respects queue_grows (close_key host k).
Proof.
  unfold close_key.
  destruct (PyStr.split "_" k) as [|a [|b [|c l]]];
    match goal with
    | |- respects _ (raise _) => refine (@respects_raise _ _ _ _)
    | |- _ => apply close_session_queue
    end.
Qed.

Lemma finish_queue host : respects queue_grows (finish host).
Proof.
  unfold finish. cbv beta zeta.
  repeat match goal with
         | |- respects _ (close_key _ _) => apply close_key_queue
         | |- _ => cbv beta zeta; queue_step
         end.
Qed.

Lemma cycle_queue host macs : respects queue_grows (cycle host macs).
Proof.
  unfold cycle. refine (@respects_bind _ _ _ _ _ _ _ _).
  - unfold Wsgi.feed. refine (@respects_for_each _ _ _ _ _ _).
    intros d. destruct (String.eqb _ _); [refine (@respects_ret _ _ _ _)|].
    apply update_queue.
  - intros _. apply finish_queue.
Qed.

(** X8: the engine only ever pushes on "ip-resolve-queue": after any
    call, any cycle and any sequence of cycles, the queue is the one
    found followed by what was pushed; nothing is popped, deleted or
    renamed away.  [update] of a pair that is not in ACTIVE pushes the ip
    of the pair, once. *)
Theorem work_queue_only_grows :
  (forall c w, queue_grows w (snd (run_call c w)))
  /\ (forall host macs w, queue_grows w (snd (cycle host macs w)))
  /\ (forall cs w, queue_grows w (run_cycles cs w))
  /\ (forall host d w,
        presence_key (e_ip d) (e_mac d) ∉ members (connected_key host) w ->
        default [] (queues (snd (update host d w)) !! "ip-resolve-queue")
        = (default [] (queues w !! "ip-resolve-queue") ++ [e_ip d])%list).
Proof.
  split; [|split; [|split]].
  - intros [h ip mac st e|h ip mac e|h ip mac|h d|h] w; cbn [run_call].
    + apply open_session_queue.
    + apply close_session_queue.
    + apply update_session_queue.
    + apply update_queue.
    + apply finish_queue.
  - intros host macs w. apply cycle_queue.
  - intros cs. induction cs as [|[host macs] cs IH]; intros w.
    + reflexivity.
    + cbn [run_cycles]. etransitivity; [apply cycle_queue|apply IH].
  - intros host d w Hnot. rewrite (update_opens host d w Hnot).
    cbn [queues]. now rewrite lookup_insert_eq.
Qed.

End WorkQueue.

(** ** What a cycle leaves in Redis *)

Section Promotion.

Import MacDbUpdate.

#[local] Set Warnings "-clear-no-such-hyp".

Lemma feed_tmp_members host es : forall w,
  members (tmp_key host) (snd (Wsgi.feed host es w))
  = members (tmp_key host) w ∪ reported_keys es.
Proof.
  induction es as [|d es IH]; intros w.
  - unfold reported_keys. cbn. set_solver.
  - rewrite feed_cons. unfold reported_keys. cbn [List.filter].
    destruct (String.eqb (e_mac d) "(incomplete)"); cbn [negb].
    + apply IH.
    + rewrite IH. cbn [map list_to_set]. fold (reported_keys es).
      unfold members at 1. rewrite (proj1 (update_sets host d w)).
      cbn [default]. set_solver.
Qed.

Lemma key_absent_set k w : key_exists k w = false -> sets w !! k = None.
Proof.
  unfold key_exists. intros H.
  apply orb_false_iff in H as [H _]. apply orb_false_iff in H as [H _].
  apply bool_decide_eq_false in H.
  destruct (sets w !! k); [exfalso; apply H; eauto|reflexivity].
Qed.

Lemma finish_result host w :
  fst (finish host w) = Ok tt ->
  members (connected_key host) (snd (finish host w))
  = members (tmp_key host) w
  /\ sets (snd (finish host w)) !! tmp_key host = None.
Proof.
  intros Hok.
  assert (Hne : tmp_key host <> connected_key host)
    by (intros E; symmetry in E; now apply connected_key_ne_tmp_key in E).
  assert (Hrename : forall w1,
    redis_of w1 = redis_of w -> key_exists (tmp_key host) w = true ->
    members (connected_key host)
            (snd (redis_rename (tmp_key host) (connected_key host) w1))
    = members (tmp_key host) w
    /\ sets (snd (redis_rename (tmp_key host) (connected_key host) w1))
       !! tmp_key host = None).
  { intros w1 Hredis Hex.
    assert (Hex1 : key_exists (tmp_key host) w1 = true)
      by now rewrite (key_exists_redis _ _ _ Hredis).
    destruct (redis_rename_run _ (connected_key host) _ Hex1)
      as (_ & _ & Hsets & _).
    unfold members. rewrite Hsets.
    destruct (rename_in_lookup _ _ (sets w1) Hne) as [-> ->].
    unfold redis_of in Hredis. injection Hredis as -> _ _. now split. }
  rewrite finish_eq in Hok |- *. cbv zeta in Hok |- *.
  destruct (key_exists (connected_key host) w) eqn:Hc;
    destruct (key_exists (tmp_key host) w) eqn:Ht.
  - unfold bind in Hok |- *.
    pose proof (close_keys_same_redis host
                  (elements (members (connected_key host) w
                             ∖ members (tmp_key host) w))
                  (log (Redis_sdiff (connected_key host) (tmp_key host))
                       (log (Redis_exists (tmp_key host))
                            (log (Redis_exists (connected_key host)) w))))
      as Hloop.
    destruct (for_each _ _ _) as [[[]|e] w1]; [|discriminate Hok].
    now apply Hrename.
  - unfold bind in Hok |- *.
    pose proof (close_keys_same_redis host
                  (elements (members (connected_key host) w))
                  (log (Redis_smembers (connected_key host))
                       (log (Redis_exists (tmp_key host))
                            (log (Redis_exists (connected_key host)) w))))
      as Hloop.
    destruct (for_each _ _ _) as [[[]|e] w1]; [|discriminate Hok].
    change (sets (snd (redis_delete (connected_key host) w1)))
      with (delete (connected_key host) (sets w1)).
    unfold members.
    change (sets (snd (redis_delete (connected_key host) w1)))
      with (delete (connected_key host) (sets w1)).
    unfold same_redis, redis_of in Hloop. cbn [snd] in Hloop.
    injection Hloop as Hsets _ _.
    change (sets (log ?a (log ?b (log ?c w)))) with (sets w) in Hsets.
    rewrite lookup_delete_eq, lookup_delete_ne, Hsets by (now apply not_eq_sym).
    now rewrite (key_absent_set _ _ Ht).
  - now apply Hrename.
  - cbn [snd]. unfold members.
    change (sets (log ?a (log ?b w))) with (sets w).
    now rewrite (key_absent_set _ _ Hc), (key_absent_set _ _ Ht).
Qed.

(** X9: a cycle that raises nothing leaves no PENDING set and an ACTIVE
    set that holds the keys PENDING had before together with the keys of
    the entries passed on to [update], and nothing else; when there was
    no PENDING, ACTIVE is the set of the keys reported. *)
Theorem cycle_promotes_reported_keys host macs w :
  fst (cycle host macs w) = Ok tt ->
  let w' := snd (cycle host macs w) in
  members (connected_key host) w'
  = members (tmp_key host) w ∪ reported_keys macs
  /\ sets w' !! tmp_key host = None
  /\ (key_exists (tmp_key host) w = false ->
      members (connected_key host) w' = reported_keys macs).
Proof.
  intros Hok. cbv zeta. unfold cycle in Hok |- *.
  rewrite (bind_ok _ _ _ _ _ (feed_total host macs w)) in Hok |- *.
  destruct (finish_result host _ Hok) as [Hactive Hpending].
  rewrite Hactive, feed_tmp_members.
  split; [reflexivity|]. split; [exact Hpending|].
  intros Habs. rewrite (key_absent_members _ _ Habs). set_solver.
Qed.

(** X9, at a sample: a cycle of two entries, one of them incomplete. *)
Lemma cycle_promotes_reported_keys_witness :
  let macs := [mkEntry "?" "10.0.0.5" "aa" "eth0";
               mkEntry "?" "10.0.0.6" "(incomplete)" "eth0"] in
  members (connected_key "fw1") (snd (cycle "fw1" macs sample_world))
  = reported_keys macs.
Proof.
  cbv zeta.
  apply (cycle_promotes_reported_keys "fw1"
           [mkEntry "?" "10.0.0.5" "aa" "eth0";
            mkEntry "?" "10.0.0.6" "(incomplete)" "eth0"] sample_world).
  - vm_compute. reflexivity.
  - reflexivity.
Defined.

Lemma only_refresh_quiet d :
  Forall only_refresh d -> inserted_rows d = [] /\ session_closes d = [].
Proof.
  intros H. split.
  - apply inserted_rows_none. eapply Forall_impl; [exact H|].
    intros [] He; try reflexivity. now destruct q.
  - apply session_closes_none. eapply Forall_impl; [exact H|].
    intros [] He; try exact I. apply He.
Qed.

Lemma update_session_only_refresh host ip mac :
  respects (emits only_refresh) (update_session host ip mac).
Proof.
  unfold update_session.
  repeat (cbv beta zeta; emits_step); cbn [only_refresh];
    try exact I; split; discriminate.
Qed.

Lemma update_only_refresh host d w :
  presence_key (e_ip d) (e_mac d) ∈ members (connected_key host) w ->
  emits only_refresh w (snd (update host d w)).
Proof.
  intros Hin. rewrite (proj1 (refresh_inserts_nothing host d w Hin)).
  transitivity (log (Redis_sismember (connected_key host)
                                     (presence_key (e_ip d) (e_mac d)))
                    (log (Statsd_incr "mac.update.update") w));
    [|etransitivity; [apply update_session_only_refresh|]].
  - exists [Statsd_incr "mac.update.update";
            Redis_sismember (connected_key host)
                            (presence_key (e_ip d) (e_mac d))].
    split; [cbn [trace log]; now rewrite <- app_assoc|].
    repeat constructor; discriminate.
  - apply emits_log; [exact I|reflexivity].
Qed.

Lemma feed_only_refresh host es : forall w,
  reported_keys es ⊆ members (connected_key host) w ->
  emits only_refresh w (snd (Wsgi.feed host es w)).
Proof.
  induction es as [|d es IH]; intros w Hsub; [reflexivity|].
  rewrite feed_cons. unfold reported_keys in Hsub. cbn [List.filter] in Hsub.
  destruct (String.eqb (e_mac d) "(incomplete)"); cbn [negb] in Hsub.
  - apply IH, Hsub.
  - cbn [map list_to_set] in Hsub. fold (reported_keys es) in Hsub.
    transitivity (snd (update host d w));
      [apply update_only_refresh; set_solver|].
    apply IH. unfold members.
    rewrite (proj2 (update_sets host d w)).
    fold (members (connected_key host) w). set_solver.
Qed.

(** [finish] when every key of ACTIVE is in PENDING. *)
Lemma finish_nothing_disappeared host w :
  members (connected_key host) w ⊆ members (tmp_key host) w ->
  fst (finish host w) = Ok tt
  /\ emits only_refresh w (snd (finish host w)).
Proof.
  intros Hsub. rewrite finish_eq. cbv zeta.
  destruct (key_exists (connected_key host) w) eqn:Hc;
    destruct (key_exists (tmp_key host) w) eqn:Ht.
  - replace (members (connected_key host) w ∖ members (tmp_key host) w)
      with (∅ : gset string) by set_solver.
    rewrite elements_empty. unfold bind. cbn [for_each ret].
    destruct (redis_rename_run (tmp_key host) (connected_key host)
                (log (Redis_sdiff (connected_key host) (tmp_key host))
                     (log (Redis_exists (tmp_key host))
                          (log (Redis_exists (connected_key host)) w))) Ht)
      as (Hok & _ & _ & Htr).
    split; [exact Hok|].
    exists [Redis_exists (connected_key host); Redis_exists (tmp_key host);
            Redis_sdiff (connected_key host) (tmp_key host);
            Redis_rename (tmp_key host) (connected_key host)].
    split; [|repeat constructor].
    rewrite Htr. cbn [trace log]. now rewrite <- !app_assoc.
  - replace (members (connected_key host) w) with (∅ : gset string)
      by (rewrite (key_absent_members _ _ Ht) in Hsub; set_solver).
    rewrite elements_empty. unfold bind. cbn [for_each ret].
    split; [reflexivity|].
    exists [Redis_exists (connected_key host); Redis_exists (tmp_key host);
            Redis_smembers (connected_key host);
            Redis_delete (connected_key host)].
    split; [|repeat constructor].
    unfold redis_delete. cbn [snd trace log with_sets with_scalars with_queues].
    now rewrite <- !app_assoc.
  - destruct (redis_rename_run (tmp_key host) (connected_key host)
                (log (Redis_exists (tmp_key host))
                     (log (Redis_exists (connected_key host)) w)) Ht)
      as (Hok & _ & _ & Htr).
    split; [exact Hok|].
    exists [Redis_exists (connected_key host); Redis_exists (tmp_key host);
            Redis_rename (tmp_key host) (connected_key host)].
    split; [|repeat constructor].
    rewrite Htr. cbn [trace log]. now rewrite <- !app_assoc.
  - split; [reflexivity|].
    exists [Redis_exists (connected_key host); Redis_exists (tmp_key host)].
    split; [|repeat constructor].
    cbn [snd trace log]. now rewrite <- !app_assoc.
Qed.

(** X10: when a cycle that found no PENDING set has gone through, a
    second cycle of the same entries goes through as well and only
    refreshes: it sends no INSERT and no UPDATE of an end time, pushes
    nothing on the work queue, calls neither [open_session] nor
    [close_session], and leaves ACTIVE as the first cycle left it. *)
Theorem same_snapshot_again host macs w :
  key_exists (tmp_key host) w = false ->
  fst (cycle host macs w) = Ok tt ->
  let w1 := snd (cycle host macs w) in
  let w2 := snd (cycle host macs w1) in
  fst (cycle host macs w1) = Ok tt
  /\ Forall only_refresh (new_events w1 w2)
  /\ inserted_rows (new_events w1 w2) = []
  /\ session_closes (new_events w1 w2) = []
  /\ members (connected_key host) w2 = members (connected_key host) w1.
Proof.
  intros Habs Hok. cbv zeta.
  assert (Hcycle : forall v, cycle host macs v
                             = finish host (snd (Wsgi.feed host macs v)))
    by (intros v; unfold cycle;
        now rewrite (bind_ok _ _ _ _ _ (feed_total host macs v))).
  rewrite Hcycle in Hok.
  destruct (finish_result host _ Hok) as [Hactive Hpending].
  rewrite feed_tmp_members, (key_absent_members _ _ Habs) in Hactive.
  rewrite (Hcycle w).
  set (w1 := snd (finish host (snd (Wsgi.feed host macs w)))) in *.
  rewrite (Hcycle w1).
  assert (Hfeed : emits only_refresh w1 (snd (Wsgi.feed host macs w1)))
    by (apply feed_only_refresh; rewrite Hactive; set_solver).
  assert (Hsub : members (connected_key host) (snd (Wsgi.feed host macs w1))
                 ⊆ members (tmp_key host) (snd (Wsgi.feed host macs w1))).
  { rewrite feed_tmp_members. unfold members at 1.
    rewrite feed_connected. fold (members (connected_key host) w1).
    rewrite Hactive. set_solver. }
  destruct (finish_nothing_disappeared host _ Hsub) as [Hok2 Hfinish].
  assert (Hnew : Forall only_refresh
                   (new_events w1
                      (snd (finish host (snd (Wsgi.feed host macs w1))))))
    by (apply emits_new_events; etransitivity; [exact Hfeed|exact Hfinish]).
  split; [exact Hok2|]. split; [exact Hnew|].
  split; [apply (only_refresh_quiet _ Hnew)|].
  split; [apply (only_refresh_quiet _ Hnew)|].
  rewrite (proj1 (finish_result host _ Hok2)), feed_tmp_members.
  unfold members at 1. rewrite Hpending. cbn [default].
  rewrite Hactive. set_solver.
Qed.

(** X10, at a sample: two entries reported twice. *)
Lemma same_snapshot_again_witness :
  let macs := [mkEntry "?" "10.0.0.5" "aa" "eth0";
               mkEntry "?" "10.0.0.6" "bb" "eth0"] in
  let w1 := snd (cycle "fw1" macs sample_world) in
  let w2 := snd (cycle "fw1" macs w1) in
  fst (cycle "fw1" macs w1) = Ok tt
  /\ Forall only_refresh (new_events w1 w2)
  /\ inserted_rows (new_events w1 w2) = []
  /\ session_closes (new_events w1 w2) = []
  /\ members (connected_key "fw1") w2 = members (connected_key "fw1") w1.
Proof.
  apply (same_snapshot_again "fw1"
           [mkEntry "?" "10.0.0.5" "aa" "eth0";
            mkEntry "?" "10.0.0.6" "bb" "eth0"] sample_world).
  - reflexivity.
  - vm_compute. reflexivity.
Defined.

End Promotion.

(** ** Looking a session up *)

Section Lookup.

Import MacDbUpdate.

(** X11: after [open_session] the row it inserted is the only open row
    of the host with that ip and the only one with that mac; after
    [close_session] the host has no open row with that ip and none with
    that mac, whatever the table held. *)
Theorem open_session_then_lookup host ip mac start_time end_time w :
  let row := mkRow mac ip host start_time None (clock w (ticks w)) in
  let opened := macdb (snd (open_session host ip mac start_time None w)) in
  let closed := macdb (snd (close_session host ip mac end_time w)) in
  List.filter (open_with_ip ip host) opened = [row]
  /\ List.filter (open_with_mac mac host) opened = [row]
  /\ List.filter (open_with_ip ip host) closed = []
  /\ List.filter (open_with_mac mac host) closed = []
  /\ length closed = length (macdb w).
Proof.
  cbv zeta. rewrite open_session_run, close_session_run. cbv zeta.
  cbn [snd macdb].
  assert (Hip : forall now,
             List.filter (open_with_ip ip host)
                         (close_matching now ip mac host (macdb w)) = []).
  { intros now. apply close_matching_none; [|apply open_with_ip_closed].
    now intros r ->. }
  assert (Hmac : forall now,
             List.filter (open_with_mac mac host)
                         (close_matching now ip mac host (macdb w)) = []).
  { intros now. apply close_matching_none; [|apply open_with_mac_closed].
    intros r ->. apply orb_true_r. }
  rewrite !List.filter_app, !Hip, !Hmac. cbn [List.filter app].
  unfold open_with_ip, open_with_mac. cbn [r_ip r_mac r_server_hostname].
  rewrite !String.eqb_refl. cbn [andb is_open r_end_time].
  repeat split. unfold close_matching. apply length_map.
Qed.

End Lookup.

(** ** What a valid hostname looks like *)

Section Hostnames.

Import Wsgi.

Lemma split_chars sep s c :
  In c (chars s) ->
  c = sep \/ exists piece, In piece (PyStr.split sep s) /\ In c (chars piece).
Proof.
  unfold chars. induction s as [|a s IH]; [intros []|].
  cbn [list_ascii_of_string PyStr.split]. intros [<-|Hc].
  - destruct (Ascii.eqb_spec a sep) as [->|_]; [now left|right].
    destruct (PyStr.split sep s) as [|p ps].
    + exists (String a ""). split; now left.
    + exists (String a p). split; now left.
  - destruct (IH Hc) as [->|(piece & Hpiece & Hin)]; [now left|right].
    destruct (Ascii.eqb a sep).
    + exists piece. split; [now right|exact Hin].
    + destruct (PyStr.split sep s) as [|p ps]; [destruct Hpiece|].
      destruct Hpiece as [<-|Hps].
      * exists (String a p). split; [now left|now right].
      * exists piece. split; [now right|exact Hin].
Qed.

Lemma last_of_list {A} (l : list A) m c :
  length l = S m -> nth_error l m = Some c -> l = (firstn m l ++ [c])%list.
Proof.
  revert m. induction l as [|a l IH]; intros m Hlen Hnth; [discriminate|].
  destruct m as [|m].
  - destruct l; [|discriminate]. cbn in Hnth. now injection Hnth as ->.
  - cbn [firstn app]. f_equal. apply IH; [now injection Hlen|exact Hnth].
Qed.

Lemma length_chars s : length (chars s) = String.length s.
Proof.
  unfold chars. induction s as [|a s IH]; [reflexivity|].
  cbn [list_ascii_of_string length String.length]. now rewrite IH.
Qed.

(** What a match of the pattern says of a label. *)
Lemma allowed_match_shape x :
  allowed_match x = true ->
  1 <= String.length x <= 64
  /\ (forall rest, x <> String "-" rest)
  /\ Forall (fun c => in_label_class c || is_newline c = true) (chars x).
Proof.
  unfold allowed_match. intros H.
  apply existsb_exists in H as (m & Hm & Hmatch).
  apply in_seq in Hm. unfold match_with in Hmatch.
  apply andb_true_iff in Hmatch as [Hmatch Hdollar].
  apply andb_true_iff in Hmatch as [Hmatch _].
  apply andb_true_iff in Hmatch as [Hmatch Hfirst].
  apply andb_true_iff in Hmatch as [Hle Hclass].
  apply Nat.leb_le in Hle. rewrite length_chars in Hle.
  assert (Hbody : Forall (fun c => in_label_class c || is_newline c = true)
                         (firstn m (chars x))).
  { rewrite forallb_forall in Hclass. apply Forall_forall.
    intros c Hc. apply list_elem_of_In in Hc. now rewrite (Hclass c Hc). }
  unfold at_dollar in Hdollar. rewrite !length_chars in Hdollar.
  split; [|split].
  - apply orb_true_iff in Hdollar as [Hd|Hd].
    + apply Nat.eqb_eq in Hd. lia.
    + apply andb_true_iff in Hd as [Hd _]. apply Nat.eqb_eq in Hd. lia.
  - intros rest ->. cbn in Hfirst. discriminate Hfirst.
  - apply orb_true_iff in Hdollar as [Hd|Hd].
    + apply Nat.eqb_eq in Hd. subst m.
      rewrite <- length_chars, firstn_all in Hbody. exact Hbody.
    + apply andb_true_iff in Hd as [Hd Hnl]. apply Nat.eqb_eq in Hd.
      destruct (nth_error (chars x) m) as [c|] eqn:Hnth; [|discriminate].
      rewrite (last_of_list (chars x) m c);
        [|now rewrite length_chars|exact Hnth].
      apply Forall_app. split; [exact Hbody|].
      constructor; [|constructor]. rewrite Hnl. apply orb_true_r.
Qed.

(** X12: a hostname that passes [is_valid_hostname] has at most 255
    characters and is not empty; each of its labels, the pieces between
    the dots, has between 1 and 64 characters and does not start with a
    hyphen; and each of its characters is a letter, a digit, a hyphen, a
    dot or a newline. *)
Theorem valid_hostname_shape h :
  is_valid_hostname h = true ->
  1 <= String.length h <= 255
  /\ Forall (fun x => 1 <= String.length x <= 64
                      /\ forall rest, x <> String "-" rest)
            (PyStr.split "." h)
  /\ Forall (fun c => hostname_char c = true) (chars h).
Proof.
  unfold is_valid_hostname. intros H.
  destruct (Nat.ltb_spec 255 (String.length h)) as [|Hlen]; [discriminate|].
  rewrite forallb_forall in H.
  split; [split; [|exact Hlen]|split].
  - destruct h as [|a h]; [|cbn [String.length]; lia].
    specialize (H "" (or_introl eq_refl)). discriminate H.
  - apply Forall_forall. intros x Hx. apply list_elem_of_In in Hx.
    destruct (allowed_match_shape x (H x Hx)) as (Hl & Hh & _).
    now split.
  - apply Forall_forall. intros c Hc. apply list_elem_of_In in Hc.
    unfold hostname_char.
    destruct (split_chars "." h c Hc) as [->|(piece & Hpiece & Hin)].
    + reflexivity.
    + destruct (allowed_match_shape piece (H piece Hpiece)) as (_ & _ & Hall).
      rewrite Forall_forall in Hall.
      apply list_elem_of_In, Hall, orb_true_iff in Hin as [-> | ->];
        [reflexivity|apply orb_true_r].
Qed.

(** X12, at a sample. *)
Lemma valid_hostname_shape_witness :
  1 <= String.length "fw-1.example.com" <= 255
  /\ Forall (fun x => 1 <= String.length x <= 64
                      /\ forall rest, x <> String "-" rest)
            (PyStr.split "." "fw-1.example.com")
  /\ Forall (fun c => hostname_char c = true) (chars "fw-1.example.com").
Proof.
  apply (valid_hostname_shape "fw-1.example.com"). vm_compute. reflexivity.
Defined.

End Hostnames.

(** ** The pairs that disappear *)

Section Disappeared.

Import MacDbUpdate.

#[local] Set Warnings "-clear-no-such-hyp".

Lemma session_closes_skip d1 d2 :
  Forall no_close d1 -> session_closes (d1 ++ d2) = session_closes d2.
Proof.
  induction 1 as [|e rest He _ IH]; [reflexivity|].
  change ((e :: rest) ++ d2)%list with (e :: (rest ++ d2))%list.
  destruct e; try exact IH.
  cbn [session_closes].
  destruct (rest ++ d2)%list as [|[] l]; try exact IH.
  destruct q; try exact IH.
  destruct l as [|[] l]; try exact IH.
  destruct q; try exact IH.
  cbn [no_close] in He. apply String.eqb_neq in He. now rewrite He.
Qed.

Lemma update_no_close host d : respects (emits no_close) (update host d).
Proof.
  unfold update, open_session, update_session.
  repeat (cbv beta zeta; emits_step); cbn [no_close];
    try exact I; discriminate.
Qed.

Lemma feed_no_close host es : respects (emits no_close) (Wsgi.feed host es).
Proof.
  unfold Wsgi.feed. refine (@respects_for_each _ _ _ _ _ _).
  intros d. destruct (String.eqb _ _); [refine (@respects_ret _ _ _ _)|].
  apply update_no_close.
Qed.

Lemma presence_key_well_formed d :
  plain_entry d -> well_formed_key (presence_key (e_ip d) (e_mac d)).
Proof.
  intros [Hip Hmac]. exists (e_ip d), (e_mac d).
  change (presence_key (e_ip d) (e_mac d))
    with (e_ip d +:+ String "_" (e_mac d)).
  now rewrite split_append, split_no_sep.
Qed.

Lemma reported_keys_spec macs k :
  k ∈ reported_keys macs
  <-> exists d, In d macs /\ e_mac d <> "(incomplete)"
                /\ k = presence_key (e_ip d) (e_mac d).
Proof.
  unfold reported_keys. rewrite elem_of_list_to_set, list_elem_of_In.
  rewrite in_map_iff. split.
  - intros (d & <- & Hd). apply filter_In in Hd as [Hd Hv].
    exists d. split; [exact Hd|]. split; [|reflexivity].
    apply String.eqb_neq. now destruct (String.eqb (e_mac d) "(incomplete)").
  - intros (d & Hd & Hv & ->). exists d. split; [reflexivity|].
    apply filter_In. split; [exact Hd|].
    apply String.eqb_neq in Hv. now rewrite Hv.
Qed.

(** [finish] when the keys to close split in two: it closes them, in the
    order of [elements], whichever of the two sets exist. *)
Lemma finish_closes host w :
  Forall well_formed_key
         (elements (members (connected_key host) w
                    ∖ members (tmp_key host) w)) ->
  fst (finish host w) = Ok tt
  /\ exists d,
       trace (snd (finish host w)) = (trace w ++ d)%list
       /\ session_closes d
          = map key_parts (elements (members (connected_key host) w
                                     ∖ members (tmp_key host) w)).
Proof.
  intros Hwf. rewrite finish_eq. cbv zeta.
  destruct (key_exists (connected_key host) w) eqn:Hc;
    destruct (key_exists (tmp_key host) w) eqn:Ht.
  - rewrite reconcile_loop by exact Hwf.
    set (w0 := log (Redis_sdiff (connected_key host) (tmp_key host))
                   (log (Redis_exists (tmp_key host))
                        (log (Redis_exists (connected_key host)) w))).
    destruct (loop_world host
                (elements (members (connected_key host) w
                           ∖ members (tmp_key host) w)) w0)
      as (Hredis & _ & d & Htr & Hcloses).
    set (w1 := snd (close_sessions host _ w0)) in *.
    assert (Ht1 : key_exists (tmp_key host) w1 = true)
      by now rewrite (key_exists_redis _ _ _ Hredis).
    destruct (redis_rename_run (tmp_key host) (connected_key host) w1 Ht1)
      as (Hok & _ & _ & Htr').
    split; [exact Hok|].
    exists ([Redis_exists (connected_key host); Redis_exists (tmp_key host);
             Redis_sdiff (connected_key host) (tmp_key host)] ++ d
            ++ [Redis_rename (tmp_key host) (connected_key host)])%list.
    split.
    + rewrite Htr', Htr. unfold w0. cbn [trace log].
      now rewrite <- !app_assoc.
    + cbn [app session_closes]. rewrite Hcloses. cbn [session_closes].
      apply app_nil_r.
  - assert (Hdiff : members (connected_key host) w ∖ members (tmp_key host) w
                    = members (connected_key host) w)
      by (rewrite (key_absent_members _ _ Ht); set_solver).
    rewrite Hdiff in Hwf |- *. rewrite reconcile_loop by exact Hwf.
    set (w0 := log (Redis_smembers (connected_key host))
                   (log (Redis_exists (tmp_key host))
                        (log (Redis_exists (connected_key host)) w))).
    destruct (loop_world host (elements (members (connected_key host) w)) w0)
      as (_ & _ & d & Htr & Hcloses).
    set (w1 := snd (close_sessions host _ w0)) in *.
    split; [reflexivity|].
    exists ([Redis_exists (connected_key host); Redis_exists (tmp_key host);
             Redis_smembers (connected_key host)] ++ d
            ++ [Redis_delete (connected_key host)])%list.
    split.
    + change (trace (snd (redis_delete (connected_key host) w1)))
        with (trace w1 ++ [Redis_delete (connected_key host)])%list.
      rewrite Htr. unfold w0. cbn [trace log]. now rewrite <- !app_assoc.
    + cbn [app session_closes]. rewrite Hcloses. cbn [session_closes].
      apply app_nil_r.
  - assert (Hdiff : members (connected_key host) w ∖ members (tmp_key host) w
                    = ∅)
      by (rewrite (key_absent_members _ _ Hc); set_solver).
    rewrite Hdiff, elements_empty.
    destruct (redis_rename_run (tmp_key host) (connected_key host)
                (log (Redis_exists (tmp_key host))
                     (log (Redis_exists (connected_key host)) w)) Ht)
      as (Hok & _ & _ & Htr).
    split; [exact Hok|].
    exists [Redis_exists (connected_key host); Redis_exists (tmp_key host);
            Redis_rename (tmp_key host) (connected_key host)].
    split; [|reflexivity].
    rewrite Htr. cbn [trace log]. now rewrite <- !app_assoc.
  - assert (Hdiff : members (connected_key host) w ∖ members (tmp_key host) w
                    = ∅)
      by (rewrite (key_absent_members _ _ Hc); set_solver).
    rewrite Hdiff, elements_empty. split; [reflexivity|].
    exists [Redis_exists (connected_key host); Redis_exists (tmp_key host)].
    split; [|reflexivity].
    cbn [snd trace log]. now rewrite <- !app_assoc.
Qed.

(** X13: after a cycle that found no PENDING set and went through, of
    entries without underscore in ip and mac, the next cycle goes through
    as well and calls [close_session] exactly for the keys the first
    cycle reported and the second does not, once each: every pair that
    disappeared is closed.  ACTIVE is then the set of the keys of the
    second cycle. *)
Theorem disappeared_pairs_are_closed host macs1 macs2 w :
  key_exists (tmp_key host) w = false ->
  fst (cycle host macs1 w) = Ok tt ->
  Forall plain_entry macs1 ->
  let w1 := snd (cycle host macs1 w) in
  let w2 := snd (cycle host macs2 w1) in
  let gone := elements (reported_keys macs1 ∖ reported_keys macs2) in
  fst (cycle host macs2 w1) = Ok tt
  /\ session_closes (new_events w1 w2) = map key_parts gone
  /\ NoDup gone
  /\ (forall d, In d macs1 -> e_mac d <> "(incomplete)" ->
                presence_key (e_ip d) (e_mac d) ∉ reported_keys macs2 ->
                In (e_ip d, e_mac d) (session_closes (new_events w1 w2)))
  /\ members (connected_key host) w2 = reported_keys macs2.
Proof.
  intros Habs Hok Hplain. cbv zeta.
  assert (Hcycle : forall es v, cycle host es v
                                = finish host (snd (Wsgi.feed host es v)))
    by (intros es v; unfold cycle;
        now rewrite (bind_ok _ _ _ _ _ (feed_total host es v))).
  rewrite Hcycle in Hok.
  destruct (finish_result host _ Hok) as [Hactive Hpending].
  rewrite feed_tmp_members, (key_absent_members _ _ Habs) in Hactive.
  rewrite (Hcycle macs1 w).
  set (w1 := snd (finish host (snd (Wsgi.feed host macs1 w)))) in *.
  rewrite (Hcycle macs2 w1).
  set (wf := snd (Wsgi.feed host macs2 w1)).
  assert (HA : members (connected_key host) wf = reported_keys macs1).
  { unfold wf, members. rewrite feed_connected.
    fold (members (connected_key host) w1). rewrite Hactive. set_solver. }
  assert (HP : members (tmp_key host) wf = reported_keys macs2).
  { unfold wf. rewrite feed_tmp_members. unfold members.
    rewrite Hpending. cbn [default]. set_solver. }
  assert (Hwf : Forall well_formed_key
                  (elements (members (connected_key host) wf
                             ∖ members (tmp_key host) wf))).
  { rewrite HA, HP. apply Forall_forall. intros k Hk.
    apply elem_of_elements, elem_of_difference in Hk as [Hk _].
    apply reported_keys_spec in Hk as (d & Hd & _ & ->).
    apply presence_key_well_formed.
    rewrite Forall_forall in Hplain. now apply Hplain, list_elem_of_In. }
  destruct (finish_closes host wf Hwf) as (Hok2 & d2 & Htr2 & Hcloses).
  destruct (feed_no_close host macs2 w1) as (d1 & Htr1 & Hd1).
  fold wf in Htr1. rewrite HA, HP in Hcloses.
  assert (Hnew : new_events w1 (snd (finish host wf)) = (d1 ++ d2)%list)
    by (apply new_events_app; rewrite Htr2, Htr1; now rewrite <- app_assoc).
  assert (Hall : session_closes (new_events w1 (snd (finish host wf)))
                 = map key_parts
                       (elements (reported_keys macs1 ∖ reported_keys macs2)))
    by (rewrite Hnew, session_closes_skip by exact Hd1; exact Hcloses).
  split; [exact Hok2|]. split; [exact Hall|].
  split; [apply NoDup_elements|]. split.
  - intros d Hd Hvalid Hgone. rewrite Hall. apply in_map_iff.
    exists (presence_key (e_ip d) (e_mac d)). split.
    + rewrite Forall_forall in Hplain.
      destruct (Hplain d (proj2 (list_elem_of_In _ _) Hd)) as [Hip Hmac].
      unfold key_parts.
      change (presence_key (e_ip d) (e_mac d))
        with (e_ip d +:+ String "_" (e_mac d)).
      now rewrite split_append, split_no_sep.
    + apply list_elem_of_In, elem_of_elements, elem_of_difference.
      split; [|exact Hgone]. apply reported_keys_spec. now exists d.
  - rewrite (proj1 (finish_result host wf Hok2)). exact HP.
Qed.

(** X13, at a sample: two pairs, then one of them. *)
Lemma disappeared_pairs_are_closed_witness :
  let e1 := mkEntry "?" "10.0.0.5" "aa" "eth0" in
  let e2 := mkEntry "?" "10.0.0.6" "bb" "eth0" in
  let w1 := snd (cycle "fw1" [e1; e2] sample_world) in
  let w2 := snd (cycle "fw1" [e2] w1) in
  session_closes (new_events w1 w2)
  = map key_parts (elements (reported_keys [e1; e2] ∖ reported_keys [e2]))
  /\ In ("10.0.0.5", "aa") (session_closes (new_events w1 w2)).
Proof.
  cbv zeta.
  destruct (disappeared_pairs_are_closed "fw1"
              [mkEntry "?" "10.0.0.5" "aa" "eth0";
               mkEntry "?" "10.0.0.6" "bb" "eth0"]
              [mkEntry "?" "10.0.0.6" "bb" "eth0"] sample_world)
    as (_ & Hcloses & _ & Hin & _).
  - reflexivity.
  - vm_compute. reflexivity.
  - repeat constructor.
  - split; [exact Hcloses|].
    apply (Hin (mkEntry "?" "10.0.0.5" "aa" "eth0")).
    + now left.
    + discriminate.
    + apply (bool_decide_unpack _). vm_compute. exact I.
Defined.

End Disappeared.


(** ** The sets of other hosts *)

Section OtherHosts.

Import MacDbUpdate.

Variables host k : string.
Hypothesis Hactive : connected_key host <> k.
Hypothesis Hpending : connected_key host +:+ "-tmp" <> k.
Hypothesis Hscalar :
  forall ip mac suffix, update_prefix host ip mac +:+ suffix <> k.

#[local] Instance set_kept_preorder : PreOrder (set_kept k).
Proof.
  split; [intros w; reflexivity|].
  intros w1 w2 w3 H12 H23. unfold set_kept in *. congruence.
Qed.

Lemma set_quiet {A} (m : M A) :
  (forall w, sets (snd (m w)) = sets w) -> respects (set_kept k) m.
Proof. intros Hm w. unfold set_kept. now rewrite Hm. Qed.

Lemma set_redis_sadd key m :
  key <> k -> respects (set_kept k) (redis_sadd key m).
Proof.
  intros Hne w. unfold set_kept.
  change (sets (snd (redis_sadd key m w)))
    with (<[key := {[m]} ∪ members key w]> (sets w)).
  now rewrite lookup_insert_ne.
Qed.

Lemma set_redis_delete key :
  key <> k -> respects (set_kept k) (redis_delete key).
Proof.
  intros Hne w. unfold set_kept.
  change (sets (snd (redis_delete key w))) with (delete key (sets w)).
  now rewrite lookup_delete_ne.
Qed.

Lemma set_redis_rename src dst :
  src <> k -> dst <> k -> respects (set_kept k) (redis_rename src dst).
Proof.
  intros Hsrc Hdst w. unfold set_kept, redis_rename.
  destruct (key_exists src w); [|reflexivity].
  cbn [snd]. change (sets (log ?e ?x)) with (sets x).
  change (sets (with_sets ?a ?x)) with a.
  unfold rename_in. destruct (sets w !! src).
  - now rewrite lookup_insert_ne, lookup_delete_ne.
  - now rewrite lookup_delete_ne.
Qed.

(** One step through a computation of the engine for [host]. *)
Ltac set_step :=
  match goal with
  | |- respects _ (bind _ _) =>
      refine (@respects_bind _ _ _ _ _ _ _ _); [|intros ?]
  | |- respects _ (ret _) => refine (@respects_ret _ _ _ _)
  | |- respects _ (raise _) => refine (@respects_raise _ _ _ _)
  | |- respects _ (for_each _ _) =>
      refine (@respects_for_each _ _ _ _ _ _); intros ?
  | |- respects _ (if ?b then _ else _) => destruct b
  | |- respects _ (match ?x with _ => _ end) => destruct x
  | |- respects _ (redis_sadd _ _) => apply set_redis_sadd; exact Hpending
  | |- respects _ (redis_delete _) =>
      apply set_redis_delete; first [exact Hactive|apply Hscalar]
  | |- respects _ (redis_rename _ _) =>
      apply set_redis_rename; [exact Hpending|exact Hactive]
  | |- respects _ _ => apply set_quiet; intros ?; reflexivity
  end.

Lemma open_session_sets ip mac start_time end_time :
  respects (set_kept k) (open_session host ip mac start_time end_time).
Proof. unfold open_session. repeat (cbv beta zeta; set_step). Qed.

Lemma close_session_sets ip mac end_time :
  respects (set_kept k) (close_session host ip mac end_time).
Proof. unfold close_session. repeat (cbv beta zeta; set_step). Qed.

Lemma update_session_set_kept ip mac :
  respects (set_kept k) (update_session host ip mac).
Proof. unfold update_session. repeat (cbv beta zeta; set_step). Qed.

Lemma update_set_kept d : respects (set_kept k) (update host d).
Proof.
  unfold update. cbv beta zeta.
  set_step; [set_step|]. set_step; [set_step|]. set_step.
  - destruct (negb a0).
    + set_step; [set_step|]. apply open_session_sets.
    + apply update_session_set_kept.
  - set_step.
Qed.

Lemma close_key_sets key : respects (set_kept k) (close_key host key).
Proof.
  unfold close_key.
  destruct (PyStr.split "_" key) as [|a [|b [|c l]]];
    match goal with
    | |- respects _ (raise _) => refine (@respects_raise _ _ _ _)
    | |- _ => apply close_session_sets
    end.
Qed.

Lemma finish_sets : respects (set_kept k) (finish host).
Proof.
  unfold finish. cbv beta zeta.
  repeat match goal with
         | |- respects _ (close_key _ _) => apply close_key_sets
         | |- _ => cbv beta zeta; set_step
         end.
Qed.

Lemma cycle_sets macs : respects (set_kept k) (cycle host macs).
Proof.
  unfold cycle. refine (@respects_bind _ _ _ _ _ _ _ _).
  - unfold Wsgi.feed. refine (@respects_for_each _ _ _ _ _ _).
    intros d. destruct (String.eqb _ _); [refine (@respects_ret _ _ _ _)|].
    apply update_set_kept.
  - intros _. apply finish_sets.
Qed.

Lemma run_call_sets c : call_host c = host -> respects (set_kept k) (run_call c).
Proof.
  destruct c; cbn [call_host run_call]; intros ->.
  - apply open_session_sets.
  - apply close_session_sets.
  - apply update_session_set_kept.
  - apply update_set_kept.
  - apply finish_sets.
Qed.

End OtherHosts.

Section HostKeys.

Import MacDbUpdate.

Lemma append_inj_r (a b c : string) : a +:+ c = b +:+ c -> a = b.
Proof.
  revert b. induction a as [|x a IH]; intros [|y b] H.
  - reflexivity.
  - apply (f_equal String.length) in H. rewrite !length_append in H.
    cbn [String.length] in H. lia.
  - apply (f_equal String.length) in H. rewrite !length_append in H.
    cbn [String.length] in H. lia.
  - change (String x (a +:+ c) = String y (b +:+ c)) in H.
    injection H as -> H. f_equal. now apply IH.
Qed.

Lemma connected_key_inj a b : connected_key a = connected_key b -> a = b.
Proof. unfold connected_key. cbn. intros H. now injection H. Qed.

(** X15: the calls and cycles for a host leave the ACTIVE and PENDING
    sets of every other host as they are, unless the name of one host is
    the name of the other followed by "-tmp": the ACTIVE set of a host
    "h-tmp" is the PENDING set of the host "h", and [update] for "h"
    writes it. *)
Theorem other_hosts_sets_kept h1 h2 :
  (h1 <> h2 -> h1 <> h2 +:+ "-tmp" -> h2 <> h1 +:+ "-tmp" ->
   (forall c w, call_host c = h1 ->
                sets (snd (run_call c w)) !! connected_key h2
                = sets w !! connected_key h2
                /\ sets (snd (run_call c w)) !! tmp_key h2
                   = sets w !! tmp_key h2)
   /\ (forall macs w,
         sets (snd (cycle h1 macs w)) !! connected_key h2
         = sets w !! connected_key h2
         /\ sets (snd (cycle h1 macs w)) !! tmp_key h2
            = sets w !! tmp_key h2))
  /\ (forall d w,
        sets (snd (update h1 d w)) !! connected_key (h1 +:+ "-tmp")
        = Some ({[presence_key (e_ip d) (e_mac d)]}
                ∪ members (tmp_key h1) w)).
Proof.
  split.
  - intros Hne H12 H21.
    assert (Ha : connected_key h1 <> connected_key h2)
      by (intros E; now apply connected_key_inj in E).
    assert (Hb : connected_key h1 +:+ "-tmp" <> connected_key h2).
    { intros E. apply H21. apply connected_key_inj. rewrite <- E.
      unfold connected_key. now rewrite append_assoc. }
    assert (Hc : connected_key h1 <> tmp_key h2).
    { intros E. apply H12. apply connected_key_inj. rewrite E.
      unfold tmp_key, connected_key. now rewrite append_assoc. }
    assert (Hd : connected_key h1 +:+ "-tmp" <> tmp_key h2).
    { intros E. unfold tmp_key in E. apply append_inj_r in E.
      now apply Ha. }
    split.
    + intros c w Hhost. split.
      * apply (run_call_sets h1 (connected_key h2) Ha Hb); [|exact Hhost].
        intros ip mac suffix. apply scalar_key_ne_connected_key.
      * apply (run_call_sets h1 (tmp_key h2) Hc Hd); [|exact Hhost].
        intros ip mac suffix. apply scalar_key_ne_tmp_key.
    + intros macs w. split.
      * apply (cycle_sets h1 (connected_key h2) Ha Hb).
        intros ip mac suffix. apply scalar_key_ne_connected_key.
      * apply (cycle_sets h1 (tmp_key h2) Hc Hd).
        intros ip mac suffix. apply scalar_key_ne_tmp_key.
  - intros d w.
    replace (connected_key (h1 +:+ "-tmp")) with (tmp_key h1)
      by (unfold tmp_key, connected_key; now rewrite append_assoc).
    apply update_sets.
Qed.

(** X15, at a sample: a cycle of fw1 and the sets of fw2. *)
Lemma other_hosts_sets_kept_witness :
  let w := snd (cycle "fw2" [mkEntry "?" "10.0.0.9" "cc" "eth0"]
                      sample_world) in
  let w' := snd (cycle "fw1" [mkEntry "?" "10.0.0.5" "aa" "eth0"] w) in
  sets w' !! connected_key "fw2" = sets w !! connected_key "fw2"
  /\ sets w' !! tmp_key "fw2" = sets w !! tmp_key "fw2".
Proof.
  cbv zeta.
  apply (proj1 (other_hosts_sets_kept "fw1" "fw2")); discriminate.
Defined.

End HostKeys.
